(** * PyTak_2025: the CoT event generators and queue workers of
      [send.py] and [tak_test.py]

    The two scripts build Cursor-on-Target events with
    [xml.etree.ElementTree], time-stamp them with [pytak.cot_time], and run
    [pytak.QueueWorker] subclasses whose [run] methods are [while True]
    loops of awaited operations.

    - Python [bytes] are lists of [Byte.byte]; Python [str] are lists of
      Unicode code points ([N]); [bytes.decode()] is the strict UTF-8
      decoder.
    - An [Element] is a tag, an insertion-ordered attribute dictionary and
      the list of its children; [ET.tostring] is the serializer of
      ElementTree with its default [us-ascii] encoding.
    - The workers are interaction trees over the operations they await
      (clock reads, queue puts and gets, log records, sleeps); [while True]
      is [ITree.forever].  The event loop is a step function on a [World]
      holding the clock, the two queues of the CLI tool and the log. *)

From Stdlib Require Import String Ascii Strings.Byte.
From Stdlib Require Import ZArith NArith List Lia Bool.
From ITree Require Import ITree Eq.Shallow.
Import ListNotations.
Import ITreeNotations.
Local Open Scope itree_scope.
Local Open Scope Z_scope.

Set Implicit Arguments.

(* ================================================================== *)
(** * Text and bytes *)

Definition bytes := list byte.
Definition str := list N.

(** A Python literal made of ASCII characters, as a [str]. *)
Definition u (s : string) : str :=
  map N_of_ascii (list_ascii_of_string s).

(** The same literal as [bytes] (Python's [b"..."]). *)
Definition b (s : string) : bytes := list_byte_of_string s.

Definition LF : N := 10%N.
Definition QUOT : N := 34%N.

Fixpoint str_eqb (x y : str) : bool :=
  match x, y with
  | [], [] => true
  | c :: x', d :: y' => (c =? d)%N && str_eqb x' y'
  | _, _ => false
  end.

(** [x < y] on [str]: the order of the code points, position by
    position. *)
Fixpoint str_ltb (x y : str) : bool :=
  match x, y with
  | _, [] => false
  | [], _ :: _ => true
  | c :: x', d :: y' => (c <? d)%N || ((c =? d)%N && str_ltb x' y')
  end.

Definition ascii_only (bs : bytes) : Prop :=
  Forall (fun x => (Byte.to_N x < 128)%N) bs.

(** ** [bytes.decode()]: strict UTF-8

    The decoder of CPython with [errors="strict"]: shortest forms only, no
    surrogates, nothing above U+10FFFF.  [None] stands for
    [UnicodeDecodeError]. *)

Definition is_cont (x : N) : bool := ((128 <=? x) && (x <=? 191))%N.

Definition cont (x : N) : N := (x - 128)%N.

Fixpoint utf8_decode (data : bytes) : option str :=
  match data with
  | [] => Some []
  | b0 :: rest =>
    let x0 := Byte.to_N b0 in
    if (x0 <? 128)%N then option_map (cons x0) (utf8_decode rest)
    else if ((194 <=? x0) && (x0 <=? 223))%N then
      match rest with
      | b1 :: rest1 =>
        let x1 := Byte.to_N b1 in
        if is_cont x1
        then option_map (cons ((x0 - 192) * 64 + cont x1)%N) (utf8_decode rest1)
        else None
      | _ => None
      end
    else if ((224 <=? x0) && (x0 <=? 239))%N then
      match rest with
      | b1 :: b2 :: rest2 =>
        let x1 := Byte.to_N b1 in
        let x2 := Byte.to_N b2 in
        if is_cont x1 && is_cont x2
           && (negb (x0 =? 224) || (160 <=? x1))%N
           && (negb (x0 =? 237) || (x1 <=? 159))%N
        then option_map
               (cons (((x0 - 224) * 64 + cont x1) * 64 + cont x2)%N)
               (utf8_decode rest2)
        else None
      | _ => None
      end
    else if ((240 <=? x0) && (x0 <=? 244))%N then
      match rest with
      | b1 :: b2 :: b3 :: rest3 =>
        let x1 := Byte.to_N b1 in
        let x2 := Byte.to_N b2 in
        let x3 := Byte.to_N b3 in
        if is_cont x1 && is_cont x2 && is_cont x3
           && (negb (x0 =? 240) || (144 <=? x1))%N
           && (negb (x0 =? 244) || (x1 <=? 143))%N
        then option_map
               (cons ((((x0 - 240) * 64 + cont x1) * 64 + cont x2) * 64
                      + cont x3)%N)
               (utf8_decode rest3)
        else None
      | _ => None
      end
    else None
  end.

(* ================================================================== *)
(** * Time stamps: [pytak.cot_time]

    [pytak.cot_time(cot_stale=None)] is the pytak library's: it reads the
    UTC clock, adds [cot_stale] seconds when the argument is given and not
    zero, and formats the result with [W3C_XML_DATETIME], that is
    ["%Y-%m-%dT%H:%M:%S.%fZ"].  Instants are microseconds since
    1970-01-01T00:00:00Z, the resolution of [datetime]. *)

Definition digit (n : Z) : N := (48 + Z.to_N (n mod 10))%N.

(** [n] in decimal on exactly [width] digits (the low ones). *)
Fixpoint zfill (width : nat) (n : Z) : str :=
  match width with
  | O => []
  | S w => zfill w (n / 10) ++ [digit n]
  end.

(** Proleptic Gregorian date of a day number counted from 1970-01-01. *)
Definition civil_from_days (z : Z) : Z * Z * Z :=
  let z := z + 719468 in
  let era := z / 146097 in
  let doe := z - era * 146097 in
  let yoe := (doe - doe / 1460 + doe / 36524 - doe / 146096) / 365 in
  let doy := doe - (365 * yoe + yoe / 4 - yoe / 100) in
  let mp := (5 * doy + 2) / 153 in
  let d := doy - (153 * mp + 2) / 5 + 1 in
  let m := if mp <? 10 then mp + 3 else mp - 9 in
  let y := yoe + era * 400 in
  (if m <=? 2 then y + 1 else y, m, d).

Definition usec_per_sec : Z := 1000000.
Definition usec_per_day : Z := 86400 * usec_per_sec.

(** The instants a [datetime] can hold: from 0001-01-01T00:00:00 to the
    end of the year 9999. *)
Definition datetime_min : Z := -62135596800 * usec_per_sec.
Definition datetime_max : Z := 253402300800 * usec_per_sec.

(** [datetime.strftime("%Y-%m-%dT%H:%M:%S.%fZ")] of the UTC instant [t].
    The year is written on four digits, which is what the library writes
    for the years 1000 to 9999 (below 1000 the C library of Linux does not
    pad the year). *)
Definition strftime (t : Z) : str :=
  let day := t / usec_per_day in
  let us := t mod usec_per_day in
  let '(y, m, d) := civil_from_days day in
  let s := us / usec_per_sec in
  zfill 4 y ++ u "-" ++ zfill 2 m ++ u "-" ++ zfill 2 d ++ u "T"
  ++ zfill 2 (s / 3600) ++ u ":" ++ zfill 2 (s / 60 mod 60) ++ u ":"
  ++ zfill 2 (s mod 60) ++ u "." ++ zfill 6 (us mod usec_per_sec) ++ u "Z".

(** The instant [cot_time] formats, given the clock reading [now]:
    [if cot_stale: time = time + timedelta(seconds=int(cot_stale))].
    Where the sum leaves the range of [datetime], in the last hour of the
    year 9999, Python raises [OverflowError]; that is left out, the sum is
    taken as it is. *)
Definition cot_instant (now : Z) (cot_stale : option Z) : Z :=
  match cot_stale with
  | Some secs => if secs =? 0 then now else now + secs * usec_per_sec
  | None => now
  end.

(* ================================================================== *)
(** * [xml.etree.ElementTree] *)

(** An element: [tag], [attrib] (a dict, in insertion order) and the
    children.  [text] and [tail] stay [None] in both scripts and are left
    out. *)
#[local] Unset Elimination Schemes.
Inductive Element : Type :=
| Elem (tag : str) (attrib : list (str * str)) (children : list Element).
#[local] Set Elimination Schemes.

Definition tag (e : Element) : str := let 'Elem t _ _ := e in t.
Definition attrib (e : Element) : list (str * str) := let 'Elem _ a _ := e in a.
Definition children (e : Element) : list Element := let 'Elem _ _ c := e in c.

(** [d[k] = v] on an insertion-ordered dict: an existing key keeps its
    place, a new one goes last. *)
Fixpoint dict_set (d : list (str * str)) (k v : str) : list (str * str) :=
  match d with
  | [] => [(k, v)]
  | (k', v') :: rest =>
    if str_eqb k' k then (k, v) :: rest else (k', v') :: dict_set rest k v
  end.

(** [d.get(k)] *)
Fixpoint dict_get (d : list (str * str)) (k : str) : option str :=
  match d with
  | [] => None
  | (k', v) :: rest => if str_eqb k' k then Some v else dict_get rest k
  end.

Module ET.

(** [elem.set(key, value)]; the element is mutated in place, here the
    updated element is returned. *)
Definition set (e : Element) (k v : str) : Element :=
  let 'Elem t a c := e in Elem t (dict_set a k v) c.

(** [elem.get(key)] *)
Definition get (e : Element) (k : str) : option str :=
  dict_get (attrib e) k.

(** [ET.SubElement(parent, tag, attrib)] appends a new child to [parent]
    (and returns the child, which both scripts drop); here the updated
    parent is returned. *)
Definition SubElement (parent : Element) (tag : str)
           (attrib : list (str * str)) : Element :=
  let 'Elem t a c := parent in Elem t a (c ++ [Elem tag attrib []]).

(** [text.replace(old, new)] for a one-character [old]. *)
Definition replace (old : N) (new : str) (text : str) : str :=
  flat_map (fun c => if (c =? old)%N then new else [c]) text.

(** [_escape_attrib]: the seven replacements, in the order of the
    library. *)
Definition _escape_attrib (text : str) : str :=
  let text := replace 38 (u "&amp;") text in
  let text := replace 60 (u "&lt;") text in
  let text := replace 62 (u "&gt;") text in
  let text := replace 34 (u "&quot;") text in
  let text := replace 13 (u "&#13;") text in
  let text := replace 10 (u "&#10;") text in
  let text := replace 9 (u "&#09;") text in
  text.

Definition write_attr (kv : str * str) : str :=
  u " " ++ fst kv ++ u "=" ++ [QUOT] ++ _escape_attrib (snd kv) ++ [QUOT].

(** [_serialize_xml] with [short_empty_elements=True]: an element
    without children is closed by [" />"].  Tags are written as they are:
    both scripts use plain names ([event], [point]), never a name
    qualified by a namespace, which the library would rewrite. *)
Fixpoint _serialize_xml (e : Element) : str :=
  let 'Elem t a c := e in
  u "<" ++ t ++ flat_map write_attr a
  ++ match c with
     | [] => u " />"
     | _ => u ">" ++ flat_map _serialize_xml c ++ u "</" ++ t ++ u ">"
     end.

(** Decimal digits of a code point, for character references. *)
Fixpoint decimal (fuel : nat) (n : N) : str :=
  match fuel with
  | O => []
  | S f => (if (n <? 10)%N then [] else decimal f (n / 10)%N)
           ++ [(48 + n mod 10)%N]
  end.

Definition byte_of (c : N) : byte :=
  match Byte.of_N c with Some x => x | None => x00 end.

(** [str.encode("us-ascii", errors="xmlcharrefreplace")] *)
Definition encode_ascii (s : str) : bytes :=
  flat_map (fun c => if (c <? 128)%N then [byte_of c]
                     else map byte_of (u "&#" ++ decimal 7 c ++ u ";")) s.

(** [ET.tostring(element)]: encoding [us-ascii], no XML declaration. *)
Definition tostring (e : Element) : bytes :=
  encode_ascii (_serialize_xml e).

(** [ET.Element(tag)] *)
Definition Element (tag : str) : Element := Elem tag [] [].

End ET.

(* ================================================================== *)
(** * The operations a worker awaits *)

(** The only exception the two scripts can raise themselves:
    [bytes.decode()] on input that is not UTF-8. *)
Variant exn : Type := UnicodeDecodeError.

(** The two queues [pytak.CLITool.setup] creates. *)
Variant queue_ref : Type := tx_queue | rx_queue.

Variant workerE : Type -> Type :=
| UtcNow : workerE Z                                   (* datetime.now(utc) *)
| PutQueue (q : queue_ref) (data : bytes) : workerE unit (* await q.put(data) *)
| QueueGet (q : queue_ref) : workerE bytes             (* await q.get() *)
| LogInfo (msg : str) : workerE unit                   (* _logger.info(...) *)
| Sleep (secs : Z) : workerE unit                      (* await asyncio.sleep *)
| Throw (e : exn) : workerE void.                      (* raise *)

Definition raise {R : Type} (e : exn) : itree workerE R :=
  v <- ITree.trigger (Throw e);; match v : void with end.

(** [data.decode()] *)
Definition bytes_decode (data : bytes) : itree workerE str :=
  match utf8_decode data with
  | Some s => Ret s
  | None => raise UnicodeDecodeError
  end.

Module pytak.

(** [pytak.cot_time(cot_stale)]: one clock read per call. *)
Definition cot_time (cot_stale : option Z) : itree workerE str :=
  now <- ITree.trigger UtcNow;;
  Ret (strftime (cot_instant now cot_stale)).

(** A [pytak.QueueWorker] instance: [QueueWorker(queue, config)]. *)
Record QueueWorker : Type :=
  { queue : queue_ref; config : list (str * str) }.

(** [await self.put_queue(data)]: puts [data] on [self.queue]. *)
Definition put_queue (self : QueueWorker) (data : bytes)
  : itree workerE unit :=
  ITree.trigger (PutQueue (queue self) data).

End pytak.

(* ================================================================== *)
(** * send.py *)

Definition tak_pong : itree workerE bytes :=
  let root := ET.Element (u "event") in
  let root := ET.set root (u "version") (u "2.0") in
  let root := ET.set root (u "type") (u "t-x-d-d") in
  let root := ET.set root (u "uid") (u "takPong") in
  let root := ET.set root (u "how") (u "m-g") in
  t <- pytak.cot_time None;;
  let root := ET.set root (u "time") t in
  t <- pytak.cot_time None;;
  let root := ET.set root (u "start") t in
  t <- pytak.cot_time (Some 3600);;
  let root := ET.set root (u "stale") t in
  Ret (ET.tostring root).

Module MySerializer.

Definition handle_data (self : pytak.QueueWorker) (data : bytes)
  : itree workerE unit :=
  let event := data in
  pytak.put_queue self event.

Definition run (self : pytak.QueueWorker) : itree workerE void :=
  ITree.forever
    (data <- tak_pong;;
     handle_data self data;;
     ITree.trigger (Sleep 20)).

End MySerializer.

(* ================================================================== *)
(** * tak_test.py *)

Definition gen_cot : itree workerE bytes :=
  let root := ET.Element (u "event") in
  let root := ET.set root (u "version") (u "2.0") in
  let root := ET.set root (u "type") (u "a-h-A-M-A") in
  let root := ET.set root (u "uid") (u "name_your_marker") in
  let root := ET.set root (u "how") (u "m-g") in
  t <- pytak.cot_time None;;
  let root := ET.set root (u "time") t in
  t <- pytak.cot_time None;;
  let root := ET.set root (u "start") t in
  t <- pytak.cot_time (Some 60);;
  let root := ET.set root (u "stale") t in
  let pt_attr :=
      [ (u "lat", u "40.781789");
        (u "lon", u "-73.968698");
        (u "hae", u "0");
        (u "ce", u "10");
        (u "le", u "10") ] in
  let root := ET.SubElement root (u "point") pt_attr in
  Ret (ET.tostring root).

(** ["Sending:\n%s\n" % text] and ["Received:\n%s\n" % text] *)
Definition sending (text : str) : str := u "Sending:" ++ [LF] ++ text ++ [LF].
Definition received (text : str) : str := u "Received:" ++ [LF] ++ text ++ [LF].

Module MySender.

Definition handle_data (self : pytak.QueueWorker) (data : bytes)
  : itree workerE unit :=
  pytak.put_queue self data.

Definition run (self : pytak.QueueWorker) : itree workerE void :=
  ITree.forever
    (data <- gen_cot;;
     text <- bytes_decode data;;
     ITree.trigger (LogInfo (sending text));;
     handle_data self data;;
     ITree.trigger (Sleep 5)).

End MySender.

Module MyReceiver.

Definition handle_data (self : pytak.QueueWorker) (data : bytes)
  : itree workerE unit :=
  text <- bytes_decode data;;
  ITree.trigger (LogInfo (received text)).

Definition run (self : pytak.QueueWorker) : itree workerE void :=
  ITree.forever
    (data <- ITree.trigger (QueueGet (pytak.queue self));;
     handle_data self data).

End MyReceiver.

(* ================================================================== *)
(** * The event loop

    What the awaited operations do is asyncio's and pytak's.  A [World]
    holds the UTC clock (microseconds), the two queues, the records the
    loggers emitted, and the operations performed so far, each with the
    time it was performed at.  Time passes between operations: [lag w n] is
    the time that elapses before the [n]-th operation starts ([lag] is
    [fun _ => 0] on an ideal machine). *)

Variant action : Type :=
| ClockRead
| Put (q : queue_ref) (data : bytes)
| Get (q : queue_ref) (data : bytes)
| Log (msg : str)
| Slept (secs : Z).

Record World : Type := mkWorld
  { clock : Z;
    lag : nat -> Z;
    ticks : nat;
    tx : list bytes;
    rx : list bytes;
    logged : list str;
    trace : list (Z * action) }.

Definition items (q : queue_ref) (w : World) : list bytes :=
  match q with tx_queue => tx w | rx_queue => rx w end.

Definition set_items (q : queue_ref) (l : list bytes) (w : World) : World :=
  match q with
  | tx_queue =>
    mkWorld (clock w) (lag w) (ticks w) l (rx w) (logged w) (trace w)
  | rx_queue =>
    mkWorld (clock w) (lag w) (ticks w) (tx w) l (logged w) (trace w)
  end.

Definition add_log (m : str) (w : World) : World :=
  mkWorld (clock w) (lag w) (ticks w) (tx w) (rx w) (logged w ++ [m]) (trace w).

Definition note (a : action) (w : World) : World :=
  mkWorld (clock w) (lag w) (ticks w) (tx w) (rx w) (logged w)
          (trace w ++ [(clock w, a)]).

(** A task resumes no earlier than its wake-up time, and then the next lag
    elapses before its operation takes place. *)
Definition begin (wake : Z) (w : World) : World :=
  mkWorld (Z.max (clock w) wake + lag w (ticks w)) (lag w) (S (ticks w))
          (tx w) (rx w) (logged w) (trace w).

Variant outcome (R : Type) : Type :=
| Done (r : R)                      (* the coroutine returned [r] *)
| Raised (e : exn)                  (* an exception leaves the coroutine *)
| Blocked                           (* suspended on an empty queue *)
| Step (w : World) (wake : Z) (t : itree workerE R).

Arguments Done {R} r.
Arguments Raised {R} e.
Arguments Blocked {R}.
Arguments Step {R} w wake t.

(** One step of a task: its next awaited operation, performed on the
    world.  [await q.get()] on an empty queue does not step; [await
    asyncio.sleep(s)] sets the wake-up time of the task and yields.

    A put appends to the queue.  The queues [pytak.CLITool] creates are
    bounded, and [put_queue] on a full queue first drops the oldest item
    and logs a warning; the bound is left out, so of a put the statements
    say which operation is performed and which item the queue ends
    with, not how long the queue is. *)
Definition istep {R : Type} (w : World) (wake : Z) (t : itree workerE R)
  : outcome R :=
  match observe t with
  | RetF r => Done r
  | TauF t' => Step w wake t'
  | VisF e k =>
    match e in workerE X return (X -> itree workerE R) -> outcome R with
    | UtcNow => fun k =>
      let w1 := begin wake w in
      Step (note ClockRead w1) wake (k (clock w1))
    | PutQueue q data => fun k =>
      let w1 := begin wake w in
      Step (note (Put q data) (set_items q (items q w1 ++ [data]) w1))
           wake (k tt)
    | QueueGet q => fun k =>
      match items q w with
      | [] => Blocked
      | data :: rest =>
        let w1 := begin wake w in
        Step (note (Get q data) (set_items q rest w1)) wake (k data)
      end
    | LogInfo msg => fun k =>
      let w1 := begin wake w in
      Step (note (Log msg) (add_log msg w1)) wake (k tt)
    | Sleep secs => fun k =>
      let w1 := begin wake w in
      Step (note (Slept secs) w1) (clock w1 + secs * usec_per_sec) (k tt)
    | Throw e => fun _ => Raised e
    end k
  end.

(** [exec n] takes exactly [n] steps, or fails when the task cannot take
    that many. *)
Fixpoint exec {R : Type} (n : nat) (w : World) (wake : Z)
         (t : itree workerE R) : option (World * Z * itree workerE R) :=
  match n with
  | O => Some (w, wake, t)
  | S n' =>
    match istep w wake t with
    | Step w' wake' t' => exec n' w' wake' t'
    | _ => None
    end
  end.

(** The states of a worker the scripts can reach: its [run] is being
    executed (possibly suspended), or an exception has ended it. *)
Variant worker_state : Type := Running | Stopped (e : exn).

Definition state_of {R : Type} (w : World) (wake : Z) (t : itree workerE R)
  : worker_state :=
  match istep w wake t with
  | Raised e => Stopped e
  | _ => Running
  end.

(** ** Several tasks on one loop

    [main] hands its workers to [pytak.CLITool], whose loop also runs the
    tasks of the tool itself; a loop is described for any list of
    tasks. *)

Record Worker : Type := spawn_at
  { code : itree workerE void; wake_at : Z }.

Definition wstep (w : World) (k : Worker) : option (World * Worker) :=
  match istep w (wake_at k) (code k) with
  | Step w' wake' t' => Some (w', spawn_at t' wake')
  | _ => None
  end.

Definition resume_time (w : World) (k : Worker) : Z :=
  Z.max (clock w) (wake_at k).

Fixpoint replace_nth {A : Type} (i : nat) (x : A) (l : list A) : list A :=
  match l, i with
  | [], _ => []
  | _ :: r, O => x :: r
  | y :: r, S i' => y :: replace_nth i' x r
  end.

(** The loop runs one of the tasks that can step and whose resumption is
    the earliest; the others are left as they are. *)
Inductive loop_step : World * list Worker -> World * list Worker -> Prop :=
| loop_run w ks i k w' k' :
    nth_error ks i = Some k ->
    wstep w k = Some (w', k') ->
    (forall j kj, nth_error ks j = Some kj -> wstep w kj <> None ->
                  resume_time w k <= resume_time w kj) ->
    loop_step (w, ks) (w', replace_nth i k' ks).

(* ================================================================== *)
(** * Decoding

    Neither script decodes an event: [MyReceiver] logs the bytes it gets.
    The [decode] of the Event Codec is modelled from the spec.  An event
    is the element the encoder serialises, so decoding is the parse of that
    XML ([fromstring], the inverse of [ET.tostring]: elements with
    attributes, references in attribute values, no character data),
    followed by the two checks of the spec. *)

Module Codec.

Definition is_space (c : N) : bool :=
  ((c =? 32) || (c =? 9) || (c =? 10) || (c =? 13))%N.

Definition is_digit (c : N) : bool := ((48 <=? c) && (c <=? 57))%N.

Definition is_name_start (c : N) : bool :=
  (((65 <=? c) && (c <=? 90)) || ((97 <=? c) && (c <=? 122))
   || (c =? 95) || (c =? 58))%N.

Definition is_name_char (c : N) : bool :=
  (is_name_start c || is_digit c || (c =? 45) || (c =? 46))%N.

Fixpoint skip_space (s : str) : str :=
  match s with
  | c :: r => if is_space c then skip_space r else s
  | [] => []
  end.

Fixpoint take_name (s : str) : str * str :=
  match s with
  | c :: r =>
    if is_name_char c
    then let '(n, r') := take_name r in (c :: n, r')
    else ([], s)
  | [] => ([], [])
  end.

(** The raw text of an attribute value, up to the closing quote [q]. *)
Fixpoint take_until (q : N) (s : str) : option (str * str) :=
  match s with
  | [] => None
  | c :: r =>
    if (c =? q)%N then Some ([], r)
    else if (c =? 60)%N then None
    else match take_until q r with
         | Some (v, r') => Some (c :: v, r')
         | None => None
         end
  end.

Fixpoint strip (prefix s : str) : option str :=
  match prefix, s with
  | [], _ => Some s
  | p :: ps, c :: r => if (p =? c)%N then strip ps r else None
  | _ :: _, [] => None
  end.

Fixpoint take_digits (s : str) : str * str :=
  match s with
  | c :: r =>
    if is_digit c
    then let '(n, r') := take_digits r in (c :: n, r')
    else ([], s)
  | [] => ([], [])
  end.

Definition of_digits (ds : str) : N :=
  fold_left (fun acc d => (acc * 10 + (d - 48))%N) ds 0%N.

(** What follows an ampersand: a predefined entity or a decimal
    character reference. *)
Definition reference (s : str) : option (N * str) :=
  match strip (u "amp;") s with Some r => Some (38%N, r) | None =>
  match strip (u "lt;") s with Some r => Some (60%N, r) | None =>
  match strip (u "gt;") s with Some r => Some (62%N, r) | None =>
  match strip (u "quot;") s with Some r => Some (34%N, r) | None =>
  match strip (u "apos;") s with Some r => Some (39%N, r) | None =>
  match strip (u "#") s with
  | Some r =>
    match take_digits r with
    | (d :: ds, r') =>
      match strip (u ";") r' with
      | Some r'' => Some (of_digits (d :: ds), r'')
      | None => None
      end
    | ([], _) => None
    end
  | None => None
  end end end end end end.

(** The value of an attribute from its raw text: references are
    replaced, literal white space is normalised to a space. *)
Fixpoint unescape (fuel : nat) (s : str) : option str :=
  match s with
  | [] => Some []
  | c :: r =>
    match fuel with
    | O => None
    | S f =>
      if (c =? 38)%N then
        match reference r with
        | Some (x, r') => option_map (cons x) (unescape f r')
        | None => None
        end
      else option_map (cons (if is_space c then 32%N else c)) (unescape f r)
    end
  end.

Definition has_key (k : str) (al : list (str * str)) : bool :=
  existsb (fun kv => str_eqb (fst kv) k) al.

(** Attributes: each one after white space, [name = "value"] with either
    quote, no name twice.  Returns what follows the last attribute, white
    space skipped. *)
Fixpoint parse_attrs (fuel : nat) (s : str)
  : option (list (str * str) * str) :=
  match fuel with
  | O => None
  | S f =>
    match skip_space s with
    | [] => Some ([], [])
    | c :: r0 =>
      if negb (is_name_start c) then Some ([], c :: r0)
      else
        match s with
        | [] => None
        | c0 :: _ =>
          if negb (is_space c0) then None
          else
            let '(k, r) := take_name (c :: r0) in
            match skip_space r with
            | eq :: r1 =>
              if negb (eq =? 61)%N then None
              else
                match skip_space r1 with
                | q :: r2 =>
                  if negb ((q =? 34) || (q =? 39))%N then None
                  else
                    match take_until q r2 with
                    | Some (raw, r3) =>
                      match unescape (List.length raw) raw with
                      | Some v =>
                        match parse_attrs f r3 with
                        | Some (al, r4) =>
                          if has_key k al then None
                          else Some ((k, v) :: al, r4)
                        | None => None
                        end
                      | None => None
                      end
                    | None => None
                    end
                | [] => None
                end
            | [] => None
            end
        end
    end
  end.

Definition starts_with_name (s : str) : bool :=
  match s with c :: _ => is_name_start c | [] => false end.

(** One element, [<name attrs />] or [<name attrs>children</name>]; the
    content of an element is elements only. *)
Fixpoint parse_element (fuel : nat) (s : str) : option (Element * str) :=
  match fuel with
  | O => None
  | S f =>
    match strip (u "<") s with
    | None => None
    | Some r =>
      if negb (starts_with_name r) then None
      else
        let '(name, r1) := take_name r in
        match parse_attrs (S (List.length r1)) r1 with
        | None => None
        | Some (al, r2) =>
          match strip (u "/>") r2 with
          | Some r3 => Some (Elem name al [], r3)
          | None =>
            match strip (u ">") r2 with
            | None => None
            | Some r3 =>
              match parse_children f r3 with
              | None => None
              | Some (cs, r4) =>
                let '(name', r5) := take_name r4 in
                if negb (str_eqb name name') then None
                else
                  match strip (u ">") (skip_space r5) with
                  | Some r6 => Some (Elem name al cs, r6)
                  | None => None
                  end
              end
            end
          end
        end
    end
  end

with parse_children (fuel : nat) (s : str) : option (list Element * str) :=
  match fuel with
  | O => None
  | S f =>
    match strip (u "</") s with
    | Some r => Some ([], r)
    | None =>
      match parse_element f s with
      | None => None
      | Some (e, r) =>
        match parse_children f r with
        | Some (es, r') => Some (e :: es, r')
        | None => None
        end
      end
    end
  end.

(** Modelled from the spec: the parse of [decode], absent from the
    scripts; the input is well-formed when it is UTF-8 and one XML element
    (as [ET.fromstring] reads it).  [None] is the spec's [ParseError]. *)
Definition fromstring (data : bytes) : option Element :=
  match utf8_decode data with
  | None => None
  | Some s =>
    match parse_element (S (List.length s)) (skip_space s) with
    | Some (e, r) =>
      match skip_space r with [] => Some e | _ :: _ => None end
    | None => None
    end
  end.

Variant DecodeError : Type := ParseError | ValidationError.

(** The fields the spec requires of an event. *)
Definition required : list str :=
  [u "version"; u "type"; u "uid"; u "how"; u "time"; u "start"; u "stale"].

Definition is_event (e : Element) : bool :=
  str_eqb (tag e) (u "event")
  && forallb (fun k => match dict_get (attrib e) k with
                       | Some _ => true
                       | None => false
                       end) required.

(** Time stamps of the W3C format have their fields at fixed places, the
    most significant first: the earlier one is the smaller text. *)
Definition precedes (earlier later : str) : bool := str_ltb earlier later.

(** Modelled from the spec: [decode(bytes) -> CotEvent], absent from the
    scripts; it "fails with ParseError if the input is not well-formed,
    or with ValidationError if stale precedes start". *)
Definition decode (data : bytes) : DecodeError + Element :=
  match fromstring data with
  | None => inl ParseError
  | Some e =>
    if negb (is_event e) then inl ParseError
    else
      match dict_get (attrib e) (u "start"),
            dict_get (attrib e) (u "stale") with
      | Some start, Some stale =>
        if precedes stale start then inl ValidationError else inr e
      | _, _ => inl ParseError
      end
  end.

End Codec.

(* ================================================================== *)
(** * Vocabulary of the statements *)

(** The element [tak_pong] builds, given its three time stamps. *)
Definition pong_event (time start stale : str) : Element :=
  Elem (u "event")
       [ (u "version", u "2.0"); (u "type", u "t-x-d-d");
         (u "uid", u "takPong"); (u "how", u "m-g");
         (u "time", time); (u "start", start); (u "stale", stale) ]
       [].

(** The element [gen_cot] builds, given its three time stamps. *)
Definition marker_event (time start stale : str) : Element :=
  Elem (u "event")
       [ (u "version", u "2.0"); (u "type", u "a-h-A-M-A");
         (u "uid", u "name_your_marker"); (u "how", u "m-g");
         (u "time", time); (u "start", start); (u "stale", stale) ]
       [ Elem (u "point")
              [ (u "lat", u "40.781789"); (u "lon", u "-73.968698");
                (u "hae", u "0"); (u "ce", u "10"); (u "le", u "10") ]
              [] ].

Definition is_time_key (k : str) : bool :=
  str_eqb k (u "time") || str_eqb k (u "start") || str_eqb k (u "stale").

(** An event without its [time], [start] and [stale] attributes. *)
Definition untimed (e : Element) : Element :=
  Elem (tag e)
       (filter (fun kv => negb (is_time_key (fst kv))) (attrib e))
       (children e).

(** [later] is the time stamp of an instant [secs] seconds after an instant
    whose time stamp is [earlier]. *)
Definition plus_seconds (earlier : str) (secs : Z) (later : str) : Prop :=
  exists t, earlier = strftime t /\ later = strftime (t + secs * usec_per_sec).

Definition queue_eqb (p q : queue_ref) : bool :=
  match p, q with
  | tx_queue, tx_queue | rx_queue, rx_queue => true
  | _, _ => false
  end.

(** The items put on [q] in a trace, with the time of each put. *)
Definition enqueued (q : queue_ref) (tr : list (Z * action))
  : list (Z * bytes) :=
  flat_map (fun ta => match snd ta with
                      | Put q' data =>
                        if queue_eqb q q' then [(fst ta, data)] else []
                      | _ => []
                      end) tr.

Definition enqueued_until (deadline : Z) (q : queue_ref)
           (tr : list (Z * action)) : list (Z * bytes) :=
  filter (fun td => fst td <=? deadline) (enqueued q tr).

(** The intervals of the sleeps in a trace. *)
Definition sleeps (tr : list (Z * action)) : list Z :=
  flat_map (fun ta => match snd ta with Slept s => [s] | _ => [] end) tr.

(** The time that elapses in lags over the next [n] operations. *)
Fixpoint lags (w : World) (n : nat) : Z :=
  match n with
  | O => 0
  | S n' => lags w n' + lag w (n' + ticks w)%nat
  end.

(** The time at which a task resumed in [w] performs its operation number
    [k] (from 0), when it does not sleep in between. *)
Fixpoint op_time (w : World) (wake : Z) (k : nat) : Z :=
  match k with
  | O => Z.max (clock w) wake + lag w (ticks w)
  | S k' => Z.max (op_time w wake k') wake + lag w (k + ticks w)%nat
  end.

(** One iteration of [MySerializer.run], as the operations it performs:
    three clock reads, the put of the event built from them, the sleep. *)
Definition serializer_iteration (q : queue_ref) (ops : list (Z * action))
  : Prop :=
  exists a b c tp ts,
    ops = [ (a, ClockRead); (b, ClockRead); (c, ClockRead);
            (tp, Put q (ET.tostring
                          (pong_event (strftime a) (strftime b)
                                      (strftime (c + 3600 * usec_per_sec)))));
            (ts, Slept 20) ].

(** One iteration of [MySender.run]: three clock reads, the log record of
    the event built from them, its put, the sleep. *)
Definition sender_iteration (q : queue_ref) (ops : list (Z * action))
  : Prop :=
  exists a b c tl tp ts,
    let data := ET.tostring
                  (marker_event (strftime a) (strftime b)
                                (strftime (c + 60 * usec_per_sec))) in
    ops = [ (a, ClockRead); (b, ClockRead); (c, ClockRead);
            (tl, Log (sending (map Byte.to_N data)));
            (tp, Put q data);
            (ts, Slept 5) ].

(** The text of an item that is UTF-8. *)
Definition decoded (data : bytes) : str :=
  match utf8_decode data with Some text => text | None => [] end.

(** The time of the operation number [j] (from 1) of the iteration number
    [k] (from 0) of [MySender.run] started in [w], when the clock does not
    go back: [k] sleeps of 5 seconds and the lags so far. *)
Definition sender_time (w : World) (k j : nat) : Z :=
  clock w + 5 * usec_per_sec * Z.of_nat k + lags w (6 * k + j).

(** What iteration [k] of [MySender.run] puts on its queue. *)
Definition sender_data (w : World) (k : nat) : bytes :=
  ET.tostring
    (marker_event (strftime (sender_time w k 1))
                  (strftime (sender_time w k 2))
                  (strftime (sender_time w k 3 + 60 * usec_per_sec))).

(** The operations of iteration [k] of [MySender.run], with their times. *)
Definition sender_ops (q : queue_ref) (w : World) (k : nat)
  : list (Z * action) :=
  [ (sender_time w k 1, ClockRead);
    (sender_time w k 2, ClockRead);
    (sender_time w k 3, ClockRead);
    (sender_time w k 4, Log (sending (map Byte.to_N (sender_data w k))));
    (sender_time w k 5, Put q (sender_data w k));
    (sender_time w k 6, Slept 5) ].

(** The other queue of the CLI tool. *)
Definition other_queue (q : queue_ref) : queue_ref :=
  match q with tx_queue => rx_queue | rx_queue => tx_queue end.

(** The time of the operation number [j] (from 1) of the iteration number
    [k] (from 0) of [MySerializer.run] started in [w], when the clock does
    not go back: [k] sleeps of 20 seconds and the lags so far. *)
Definition serializer_time (w : World) (k j : nat) : Z :=
  clock w + 20 * usec_per_sec * Z.of_nat k + lags w (5 * k + j).

(** What iteration [k] of [MySerializer.run] puts on its queue. *)
Definition serializer_data (w : World) (k : nat) : bytes :=
  ET.tostring
    (pong_event (strftime (serializer_time w k 1))
                (strftime (serializer_time w k 2))
                (strftime (serializer_time w k 3 + 3600 * usec_per_sec))).

(** The operations of iteration [k] of [MySerializer.run], with their
    times. *)
Definition serializer_ops (q : queue_ref) (w : World) (k : nat)
  : list (Z * action) :=
  [ (serializer_time w k 1, ClockRead);
    (serializer_time w k 2, ClockRead);
    (serializer_time w k 3, ClockRead);
    (serializer_time w k 4, Put q (serializer_data w k));
    (serializer_time w k 5, Slept 20) ].

(** ** The text of the events

    A character an attribute value is written with as it is: ASCII, and
    none of the seven [_escape_attrib] replaces. *)
Definition plain_char (c : N) : bool :=
  ((c <? 128)
   && negb ((c =? 38) || (c =? 60) || (c =? 62) || (c =? 34)
            || (c =? 13) || (c =? 10) || (c =? 9)))%N.

(** The text of the event of [tak_pong], given the texts of its three time
    stamps. *)
Definition pong_text (time start stale : str) : str :=
  u "<event version=" ++ [QUOT] ++ u "2.0" ++ [QUOT]
  ++ u " type=" ++ [QUOT] ++ u "t-x-d-d" ++ [QUOT]
  ++ u " uid=" ++ [QUOT] ++ u "takPong" ++ [QUOT]
  ++ u " how=" ++ [QUOT] ++ u "m-g" ++ [QUOT]
  ++ u " time=" ++ [QUOT] ++ time ++ [QUOT]
  ++ u " start=" ++ [QUOT] ++ start ++ [QUOT]
  ++ u " stale=" ++ [QUOT] ++ stale ++ [QUOT]
  ++ u " />".

(** The text of the event of [gen_cot]. *)
Definition marker_text (time start stale : str) : str :=
  u "<event version=" ++ [QUOT] ++ u "2.0" ++ [QUOT]
  ++ u " type=" ++ [QUOT] ++ u "a-h-A-M-A" ++ [QUOT]
  ++ u " uid=" ++ [QUOT] ++ u "name_your_marker" ++ [QUOT]
  ++ u " how=" ++ [QUOT] ++ u "m-g" ++ [QUOT]
  ++ u " time=" ++ [QUOT] ++ time ++ [QUOT]
  ++ u " start=" ++ [QUOT] ++ start ++ [QUOT]
  ++ u " stale=" ++ [QUOT] ++ stale ++ [QUOT]
  ++ u ">"
  ++ u "<point lat=" ++ [QUOT] ++ u "40.781789" ++ [QUOT]
  ++ u " lon=" ++ [QUOT] ++ u "-73.968698" ++ [QUOT]
  ++ u " hae=" ++ [QUOT] ++ u "0" ++ [QUOT]
  ++ u " ce=" ++ [QUOT] ++ u "10" ++ [QUOT]
  ++ u " le=" ++ [QUOT] ++ u "10" ++ [QUOT]
  ++ u " />"
  ++ u "</event>".

(** A world at the epoch: nothing done yet, [feed] waiting on the receive
    queue, and [d] microseconds elapsing before every operation. *)
Definition start_world (d : Z) (feed : list bytes) : World :=
  mkWorld 0 (fun _ => d) 0 [] feed [] [].

(** The call [t], started in [w], returns [r] after [n] operations and
    leaves the world [w']. *)
Definition returns {R : Type} (n : nat) (w : World) (wake : Z)
           (t : itree workerE R) (r : R) (w' : World) : Prop :=
  exists t', exec n w wake t = Some (w', wake, t') /\ observe t' = RetF r.

(** Between [w] and [w'] the clock was read three times (at [r1], [r2] and
    [r3]), and nothing else happened. *)
Definition three_clock_reads (w w' : World) (r1 r2 r3 : Z) : Prop :=
  tx w' = tx w /\ rx w' = rx w /\ logged w' = logged w /\
  trace w' = trace w ++ [(r1, ClockRead); (r2, ClockRead); (r3, ClockRead)].

(** Two events that differ in their time stamps at most. *)
Definition same_but_times (e1 e2 : Element) : Prop :=
  untimed e1 = untimed e2 /\
  map fst (attrib e1) = map fst (attrib e2).

(** ** Elements the decoder gets back

    The text [ET.tostring] writes, before its encoding to bytes: code
    points above 127 are character references. *)
Definition charrefs (s : str) : str :=
  flat_map (fun c => if (c <? 128)%N then [c]
                     else u "&#" ++ ET.decimal 7 c ++ u ";") s.

Definition xml_name (n : str) : bool :=
  match n with
  | c :: r => Codec.is_name_start c && forallb Codec.is_name_char r
  | [] => false
  end.

Fixpoint unique_keys (a : list (str * str)) : bool :=
  match a with
  | [] => true
  | (k, _) :: r => negb (Codec.has_key k r) && unique_keys r
  end.

(** Tags and attribute names are XML names, no attribute name occurs
    twice (it is a dict), and the values are made of code points. *)
Fixpoint well_formed (e : Element) : bool :=
  let 'Elem t a c := e in
  xml_name t
  && forallb (fun kv => xml_name (fst kv)
                        && forallb (fun c => (c <? 1114112)%N) (snd kv)) a
  && unique_keys a
  && forallb well_formed c.

(** The fuel [Codec.parse_element] needs on the text of an element. *)
Fixpoint height (e : Element) : nat :=
  let 'Elem _ _ c := e in
  S (fold_right (fun x acc => S (Nat.max (height x) acc)) 1%nat c).

(** The text of an attribute value, of an attribute, of an element, as
    the encoder writes them. *)
Definition value_text (v : str) : str := charrefs (ET._escape_attrib v).

Definition attr_text (kv : str * str) : str :=
  u " " ++ fst kv ++ u "=" ++ [QUOT] ++ value_text (snd kv) ++ [QUOT].

Definition element_text (e : Element) : str := charrefs (ET._serialize_xml e).

Definition attrs_ok (a : list (str * str)) : bool :=
  forallb (fun kv => xml_name (fst kv)
                     && forallb (fun c => (c <? 1114112)%N) (snd kv)) a
  && unique_keys a.

(** A text at which the scan of a name stops. *)
Definition stops_name (rest : str) : Prop :=
  match rest with c :: _ => Codec.is_name_char c = false | [] => True end.

Definition children_fuel (c : list Element) : nat :=
  fold_right (fun x acc => S (Nat.max (height x) acc)) 1%nat c.

(** The order of dates: year, then month, then day. *)
Definition lex3 (a b : Z * Z * Z) : Prop :=
  let '(a1, a2, a3) := a in
  let '(b1, b2, b3) := b in
  a1 < b1 \/ (a1 = b1 /\ (a2 < b2 \/ (a2 = b2 /\ a3 < b3))).

(* ================================================================== *)
(** * Facts about text, bytes and time stamps *)

Lemma str_eqb_eq (x y : str) : str_eqb x y = true <-> x = y.
Proof.
  revert y. induction x as [|c x IH]; intros [|d y]; cbn; try easy.
  rewrite andb_true_iff, N.eqb_eq, IH. split.
  - intros [-> ->]. reflexivity.
  - intros E. inversion E. auto.
Qed.

Lemma str_eqb_refl (x : str) : str_eqb x x = true.
Proof. now apply str_eqb_eq. Qed.

Lemma byte_of_to_N (c : N) : (c < 256)%N -> Byte.to_N (ET.byte_of c) = c.
Proof.
  intros H. unfold ET.byte_of.
  destruct (Byte.of_N c) as [x|] eqn:E.
  - now apply Byte.to_of_N.
  - apply Byte.of_N_None_iff in E. lia.
Qed.

(** ASCII bytes always decode, to themselves. *)
Lemma utf8_decode_ascii (bs : bytes) :
  ascii_only bs -> utf8_decode bs = Some (map Byte.to_N bs).
Proof.
  induction 1 as [|x l Hx Hl IH]; [reflexivity|].
  cbn [utf8_decode map]. apply N.ltb_lt in Hx. rewrite Hx, IH. reflexivity.
Qed.

Lemma decimal_ascii (f : nat) (n : N) :
  Forall (fun c => (c < 128)%N) (ET.decimal f n).
Proof.
  revert n. induction f as [|f IH]; intros n; cbn [ET.decimal]; [constructor|].
  apply Forall_app. split.
  - destruct (n <? 10)%N; [constructor | apply IH].
  - constructor; [|constructor].
    pose proof (N.mod_lt n 10). lia.
Qed.

(** What [ET.tostring] writes is ASCII, whatever the element. *)
Lemma encode_ascii_only (s : str) : ascii_only (ET.encode_ascii s).
Proof.
  unfold ascii_only, ET.encode_ascii.
  induction s as [|c s IH]; cbn [flat_map]; [constructor|].
  apply Forall_app. split; [|exact IH].
  destruct (c <? 128)%N eqn:E.
  - constructor; [|constructor].
    apply N.ltb_lt in E. rewrite byte_of_to_N; lia.
  - apply Forall_map. apply Forall_app. split; [|apply Forall_app; split].
    + repeat constructor.
    + eapply Forall_impl; [|apply decimal_ascii].
      cbn beta. intros a Ha. rewrite byte_of_to_N; lia.
    + repeat constructor.
Qed.

Lemma decode_tostring (e : Element) :
  utf8_decode (ET.tostring e) = Some (map Byte.to_N (ET.tostring e)).
Proof. apply utf8_decode_ascii, encode_ascii_only. Qed.

Lemma zfill_length (w : nat) (n : Z) : List.length (zfill w n) = w.
Proof.
  revert n. induction w as [|w IH]; intros n; cbn [zfill]; [reflexivity|].
  rewrite length_app, IH. cbn. lia.
Qed.

Lemma digit_range (n : Z) : (48 <= digit n <= 57)%N.
Proof.
  unfold digit. pose proof (Z.mod_pos_bound n 10 ltac:(lia)). lia.
Qed.

Lemma zfill_digits (w : nat) (n : Z) :
  Forall (fun c => (48 <= c <= 57)%N) (zfill w n).
Proof.
  revert n. induction w as [|w IH]; intros n; cbn [zfill]; [constructor|].
  apply Forall_app. split; [apply IH|].
  constructor; [apply digit_range | constructor].
Qed.

(** A time stamp is made of digits and of the punctuation of the format. *)
Lemma strftime_chars (t : Z) :
  Forall (fun c => (45 <= c <= 90)%N) (strftime t).
Proof.
  unfold strftime. destruct (civil_from_days _) as [[y m] d].
  assert (D : forall w n, Forall (fun c => (45 <= c <= 90)%N) (zfill w n)).
  { intros w n. eapply Forall_impl; [|apply zfill_digits]. cbn beta. lia. }
  assert (P : forall s, forallb (fun c => (45 <=? c) && (c <=? 90))%N (u s) = true ->
                        Forall (fun c => (45 <= c <= 90)%N) (u s)).
  { intros s H. rewrite forallb_forall in H. apply Forall_forall.
    intros c Hc. apply H in Hc. apply andb_true_iff in Hc.
    rewrite !N.leb_le in Hc. exact Hc. }
  repeat first [ apply D | apply P; reflexivity | apply Forall_app; split ].
Qed.

(** The last digit of a time stamp is the last digit of the instant. *)
Lemma strftime_last_digit (t : Z) :
  nth 25 (strftime t) 0%N = (48 + Z.to_N (t mod 10))%N.
Proof.
  unfold strftime. destruct (civil_from_days _) as [[y m] d].
  cbn [zfill app u map list_ascii_of_string nth].
  unfold digit. do 2 f_equal.
  unfold usec_per_day, usec_per_sec.
  rewrite (Z.mod_mod_divide _ 1000000 10) by (exists 100000; lia).
  rewrite (Z.mod_mod_divide _ (86400 * 1000000) 10) by (exists 8640000000; lia).
  reflexivity.
Qed.

(** Two time stamps a whole number of seconds apart end on the same
    digit. *)
Lemma plus_seconds_last_digit (earlier later : str) (secs : Z) :
  plus_seconds earlier secs later ->
  nth 25 earlier 0%N = nth 25 later 0%N.
Proof.
  intros (t & -> & ->). rewrite !strftime_last_digit.
  do 2 f_equal. unfold usec_per_sec.
  replace (t + secs * 1000000) with (t + (secs * 100000) * 10) by lia.
  now rewrite Z.mod_add by lia.
Qed.

(* ================================================================== *)
(** * Facts about the event loop *)

Lemma exec_add {R : Type} (n m : nat) (w : World) (wake : Z)
      (t : itree workerE R) :
  exec (n + m) w wake t =
  match exec n w wake t with
  | Some (w', wake', t') => exec m w' wake' t'
  | None => None
  end.
Proof.
  revert w wake t.
  induction n as [|n IH]; intros w wake t; cbn [exec Nat.add]; [reflexivity|].
  destruct (istep w wake t); auto.
Qed.

(** Steps only add to the trace and to the log. *)
Lemma istep_trace {R : Type} (w : World) (wake : Z) (t : itree workerE R)
      w' wake' t' :
  istep w wake t = Step w' wake' t' -> exists ops, trace w' = trace w ++ ops.
Proof.
  unfold istep. destruct (observe t) as [r|t0|X e k]; try discriminate.
  - intros H. inversion H; subst. exists []. now rewrite app_nil_r.
  - destruct e; try discriminate.
    + intros H; inversion H; subst; eexists; cbn; reflexivity.
    + intros H; inversion H; subst; eexists; destruct q; cbn; reflexivity.
    + destruct (items q w) eqn:E; try discriminate.
      intros H; inversion H; subst; eexists; destruct q; cbn; reflexivity.
    + intros H; inversion H; subst; eexists; cbn; reflexivity.
    + intros H; inversion H; subst; eexists; cbn; reflexivity.
Qed.

Lemma exec_trace {R : Type} (n : nat) (w : World) (wake : Z)
      (t : itree workerE R) w' wake' t' :
  exec n w wake t = Some (w', wake', t') ->
  exists ops, trace w' = trace w ++ ops.
Proof.
  revert w wake t. induction n as [|n IH]; intros w wake t; cbn [exec].
  - intros H. inversion H; subst. exists []. now rewrite app_nil_r.
  - destruct (istep w wake t) as [| | |w1 wake1 t1] eqn:E; try discriminate.
    intros H. apply IH in H. destruct H as [ops2 H2].
    apply istep_trace in E. destruct E as [ops1 H1].
    exists (ops1 ++ ops2). now rewrite H2, H1, app_assoc.
Qed.

(** A step looks at the head of the tree only. *)
Lemma istep_observe {R : Type} (w : World) (wake : Z)
      (t1 t2 : itree workerE R) :
  observe t1 = observe t2 -> istep w wake t1 = istep w wake t2.
Proof. unfold istep. intros ->. reflexivity. Qed.

Lemma exec_observe {R : Type} (n : nat) (w : World) (wake : Z)
      (t1 t2 : itree workerE R) :
  observe t1 = observe t2 -> exec (S n) w wake t1 = exec (S n) w wake t2.
Proof. intros H. cbn [exec]. now rewrite (istep_observe w wake t1 t2 H). Qed.

(** The steps of [t] are the first steps of [x <- t;; k x]. *)
Lemma istep_bind {R A : Type} (w : World) (wake : Z) (t : itree workerE A)
      (k : A -> itree workerE R) w' wake' t' :
  istep w wake t = Step w' wake' t' ->
  istep w wake (ITree.bind t k) = Step w' wake' (ITree.bind t' k).
Proof.
  unfold istep. rewrite observe_bind.
  destruct (observe t) as [r|t0|X e h]; try discriminate.
  - intros H; inversion H; subst. reflexivity.
  - destruct e; try discriminate.
    + intros H; inversion H; subst. reflexivity.
    + intros H; inversion H; subst. reflexivity.
    + cbn. destruct (items q w); try discriminate.
      intros H; inversion H; subst. reflexivity.
    + intros H; inversion H; subst. reflexivity.
    + intros H; inversion H; subst. reflexivity.
Qed.

Lemma exec_bind {R A : Type} (n : nat) (w : World) (wake : Z)
      (t : itree workerE A) (k : A -> itree workerE R) w' wake' t' :
  exec n w wake t = Some (w', wake', t') ->
  exec n w wake (ITree.bind t k) = Some (w', wake', ITree.bind t' k).
Proof.
  revert w wake t. induction n as [|n IH]; intros w wake t; cbn [exec].
  - intros H. inversion H; subst. reflexivity.
  - destruct (istep w wake t) as [| | |w1 wake1 t1] eqn:E; try discriminate.
    intros H. rewrite (istep_bind _ _ _ k E). now apply IH.
Qed.

(** Once [t] has returned [r], [x <- t;; k x] goes on as [k r]. *)
Lemma exec_bind_ret {R A : Type} (n : nat) (w : World) (wake : Z)
      (t : itree workerE A) (k : A -> itree workerE R) (r : A) :
  observe t = RetF r ->
  exec (S n) w wake (ITree.bind t k) = exec (S n) w wake (k r).
Proof.
  intros H. apply exec_observe. rewrite observe_bind, H. reflexivity.
Qed.

Lemma exec_call {R A : Type} (n m : nat) (w : World) (wake : Z)
      (t : itree workerE A) (k : A -> itree workerE R) w' wake' t' (r : A) :
  exec n w wake t = Some (w', wake', t') ->
  observe t' = RetF r ->
  exec (n + S m) w wake (ITree.bind t k) = exec (S m) w' wake' (k r).
Proof.
  intros H Hr. rewrite exec_add, (exec_bind _ _ _ _ k H).
  now apply exec_bind_ret.
Qed.

(** [while True: body]: when the body has returned, the loop is back at
    its top one step later. *)
Lemma forever_iteration {A : Type} (n : nat) (w : World) (wake : Z)
      (body : itree workerE A) w' wake' t' (r : A) :
  exec n w wake body = Some (w', wake', t') ->
  observe t' = RetF r ->
  exec (S n) w wake (ITree.forever body : itree workerE void)
  = Some (w', wake', ITree.forever body).
Proof.
  intros H Hr.
  rewrite (exec_observe n w wake _ _
             (observing_observe (unfold_forever_ (S := void) body))).
  replace (S n) with (n + 1)%nat by lia.
  erewrite exec_call; [reflexivity | exact H | exact Hr].
Qed.

(** Evaluation of a run on a symbolic world: the operations are performed,
    the time stamps and the encodings are left as they are. *)
Ltac run :=
  cbn -[strftime ET.tostring u Z.max Z.add Z.mul usec_per_sec
        sending received utf8_decode pong_event marker_event op_time].

Ltac world :=
  cbv [note begin add_log set_items items
       clock lag ticks tx rx logged trace pytak.queue];
  cbn [op_time Nat.add];
  rewrite <- ?app_assoc; cbn [app].

Lemma op_time_le (w : World) (wake : Z) (k : nat) :
  (forall i, 0 <= lag w i) ->
  Z.max (clock w) wake <= op_time w wake k /\
  op_time w wake k <= op_time w wake (S k).
Proof.
  intros H. induction k as [|k [IH1 IH2]]; cbn [op_time].
  - pose proof (H (ticks w)). pose proof (H (1 + ticks w)%nat). lia.
  - pose proof (H (S k + ticks w)%nat). pose proof (H (S (S k) + ticks w)%nat).
    cbn [op_time] in IH2. lia.
Qed.

(** With a clock that does not go back, the operations of a task take place
    at its resumption plus the lags so far. *)
Lemma op_time_lags (w : World) (wake : Z) (k : nat) :
  (forall i, 0 <= lag w i) ->
  op_time w wake k = Z.max (clock w) wake + lags w (S k).
Proof.
  intros H. induction k as [|k IH].
  - reflexivity.
  - cbn [op_time]. rewrite IH. cbn [lags].
    pose proof (H (ticks w)). pose proof (H (k + ticks w)%nat).
    assert (0 <= lags w k).
    { clear IH. induction k as [|j IHj]; cbn [lags]; [lia|].
      pose proof (H (j + ticks w)%nat).
      pose proof (H (S j + ticks w)%nat) as HS.
      assert (0 <= lags w j) by (apply IHj; auto). lia. }
    cbn [lags]. lia.
Qed.

(* ================================================================== *)
(** * The generators *)

(** [tak_pong()] reads the clock three times and returns the encoding of
    the event built from the three readings; nothing else happens. *)
Lemma tak_pong_run (w : World) (wake : Z) :
  exists t',
    exec 3 w wake tak_pong =
      Some (mkWorld (op_time w wake 2) (lag w) (3 + ticks w)
                    (tx w) (rx w) (logged w)
                    (trace w ++ [ (op_time w wake 0, ClockRead);
                                  (op_time w wake 1, ClockRead);
                                  (op_time w wake 2, ClockRead) ]),
            wake, t') /\
    observe t' =
      RetF (ET.tostring
              (pong_event (strftime (op_time w wake 0))
                          (strftime (op_time w wake 1))
                          (strftime (op_time w wake 2 + 3600 * usec_per_sec)))).
Proof.
  eexists. split.
  - run. world. reflexivity.
  - reflexivity.
Qed.

Lemma gen_cot_run (w : World) (wake : Z) :
  exists t',
    exec 3 w wake gen_cot =
      Some (mkWorld (op_time w wake 2) (lag w) (3 + ticks w)
                    (tx w) (rx w) (logged w)
                    (trace w ++ [ (op_time w wake 0, ClockRead);
                                  (op_time w wake 1, ClockRead);
                                  (op_time w wake 2, ClockRead) ]),
            wake, t') /\
    observe t' =
      RetF (ET.tostring
              (marker_event (strftime (op_time w wake 0))
                            (strftime (op_time w wake 1))
                            (strftime (op_time w wake 2 + 60 * usec_per_sec)))).
Proof.
  eexists. split.
  - run. world. reflexivity.
  - reflexivity.
Qed.

(* ================================================================== *)
(** * The workers, one iteration at a time *)

Lemma items_set_items (q : queue_ref) (l : list bytes) (w : World) :
  items q (set_items q l w) = l.
Proof. destruct q; reflexivity. Qed.

(** [MySerializer.handle_data] and [MySender.handle_data] are one put of
    their argument on the queue of the worker. *)
Lemma put_queue_run (self : pytak.QueueWorker) (data : bytes)
      (w : World) (wake : Z) :
  let q := pytak.queue self in
  exists t',
    exec 1 w wake (pytak.put_queue self data) =
      Some (set_items q (items q w ++ [data])
              (mkWorld (op_time w wake 0) (lag w) (1 + ticks w)
                       (tx w) (rx w) (logged w)
                       (trace w ++ [(op_time w wake 0, Put q data)])),
            wake, t') /\
    observe t' = RetF tt.
Proof.
  intros q. eexists. split.
  - run. subst q. destruct self as [[] cfg]; world; reflexivity.
  - reflexivity.
Qed.

(** One iteration of [MySerializer.run]: six steps, the last one the jump
    back to [while True]. *)
Lemma serializer_step (self : pytak.QueueWorker) (w : World) (wake : Z) :
  let q := pytak.queue self in
  let data := ET.tostring
                (pong_event (strftime (op_time w wake 0))
                            (strftime (op_time w wake 1))
                            (strftime (op_time w wake 2 + 3600 * usec_per_sec))) in
  exec 6 w wake (MySerializer.run self) =
    Some (set_items q (items q w ++ [data])
            (mkWorld (op_time w wake 4) (lag w) (5 + ticks w)
                     (tx w) (rx w) (logged w)
                     (trace w ++ [ (op_time w wake 0, ClockRead);
                                   (op_time w wake 1, ClockRead);
                                   (op_time w wake 2, ClockRead);
                                   (op_time w wake 3, Put q data);
                                   (op_time w wake 4, Slept 20) ])),
          op_time w wake 4 + 20 * usec_per_sec,
          MySerializer.run self).
Proof.
  intros q data.
  destruct (tak_pong_run w wake) as (t3 & E3 & R3).
  unfold MySerializer.run. eapply (forever_iteration 5).
  - change 5%nat with (3 + 2)%nat.
    erewrite exec_call; [|exact E3|exact R3].
    fold data. run.
    subst q. destruct self as [[] cfg]; world; reflexivity.
  - reflexivity.
Qed.

(** One iteration of [MySender.run]: seven steps.  The decoding of what
    [gen_cot] returned cannot fail, the encoder writes ASCII. *)
Lemma sender_step (self : pytak.QueueWorker) (w : World) (wake : Z) :
  let q := pytak.queue self in
  let data := ET.tostring
                (marker_event (strftime (op_time w wake 0))
                              (strftime (op_time w wake 1))
                              (strftime (op_time w wake 2 + 60 * usec_per_sec))) in
  let msg := sending (map Byte.to_N data) in
  exec 7 w wake (MySender.run self) =
    Some (set_items q (items q w ++ [data])
            (mkWorld (op_time w wake 5) (lag w) (6 + ticks w)
                     (tx w) (rx w) (logged w ++ [msg])
                     (trace w ++ [ (op_time w wake 0, ClockRead);
                                   (op_time w wake 1, ClockRead);
                                   (op_time w wake 2, ClockRead);
                                   (op_time w wake 3, Log msg);
                                   (op_time w wake 4, Put q data);
                                   (op_time w wake 5, Slept 5) ])),
          op_time w wake 5 + 5 * usec_per_sec,
          MySender.run self).
Proof.
  intros q data msg.
  destruct (gen_cot_run w wake) as (t3 & E3 & R3).
  unfold MySender.run. eapply (forever_iteration 6).
  - change 6%nat with (3 + 3)%nat.
    erewrite exec_call; [|exact E3|exact R3].
    fold data. unfold bytes_decode. unfold data at 1.
    rewrite decode_tostring. fold data. fold msg. run.
    subst q. destruct self as [[] cfg]; world; reflexivity.
  - reflexivity.
Qed.

(** [MyReceiver.run] on an empty queue: suspended, not stopped. *)
Lemma receiver_blocked (self : pytak.QueueWorker) (w : World) (wake : Z) :
  items (pytak.queue self) w = [] ->
  istep w wake (MyReceiver.run self) = Blocked.
Proof.
  intros H. unfold istep. cbn. rewrite H. reflexivity.
Qed.

(** The first step of an iteration of [MyReceiver.run] takes the head of
    the queue; what follows is [handle_data] on it. *)
Lemma receiver_get (self : pytak.QueueWorker) (w : World) (wake : Z)
      (data : bytes) (rest : list bytes) :
  let q := pytak.queue self in
  items q w = data :: rest ->
  exists t1,
    exec 1 w wake (MyReceiver.run self) =
      Some (set_items q rest
              (mkWorld (op_time w wake 0) (lag w) (1 + ticks w)
                       (tx w) (rx w) (logged w)
                       (trace w ++ [(op_time w wake 0, Get q data)])),
            wake, t1) /\
    observe t1 =
    observe (ITree.bind (MyReceiver.handle_data self data)
                        (fun _ => Tau (MyReceiver.run self))).
Proof.
  intros q H. eexists. split.
  - cbn [exec]. unfold istep. cbn. fold q. rewrite H.
    subst q. destruct self as [[] cfg]; world; reflexivity.
  - reflexivity.
Qed.

(** An item that is UTF-8 is logged, and the loop is back at its top. *)
Lemma receiver_step (self : pytak.QueueWorker) (w : World) (wake : Z)
      (data : bytes) (rest : list bytes) (text : str) :
  let q := pytak.queue self in
  items q w = data :: rest ->
  utf8_decode data = Some text ->
  exec 3 w wake (MyReceiver.run self) =
    Some (set_items q rest
            (mkWorld (op_time w wake 1) (lag w) (2 + ticks w)
                     (tx w) (rx w) (logged w ++ [received text])
                     (trace w ++ [ (op_time w wake 0, Get q data);
                                   (op_time w wake 1, Log (received text)) ])),
          wake, MyReceiver.run self).
Proof.
  intros q H U.
  destruct (receiver_get self w wake H) as (t1 & E1 & O1).
  change 3%nat with (1 + 2)%nat. rewrite exec_add, E1.
  rewrite (exec_observe 1 _ wake _ _ O1).
  unfold MyReceiver.handle_data, bytes_decode. rewrite U. run.
  subst q. destruct self as [[] cfg]; world; reflexivity.
Qed.

(** An item that is not UTF-8: the exception of [data.decode()] leaves
    [handle_data] and [run]; nothing is logged. *)
Lemma receiver_raises (self : pytak.QueueWorker) (w : World) (wake : Z)
      (data : bytes) (rest : list bytes) :
  let q := pytak.queue self in
  items q w = data :: rest ->
  utf8_decode data = None ->
  exists t1,
    exec 1 w wake (MyReceiver.run self) =
      Some (set_items q rest
              (mkWorld (op_time w wake 0) (lag w) (1 + ticks w)
                       (tx w) (rx w) (logged w)
                       (trace w ++ [(op_time w wake 0, Get q data)])),
            wake, t1) /\
    forall w1, istep w1 wake t1 = Raised UnicodeDecodeError.
Proof.
  intros q H U.
  destruct (receiver_get self w wake H) as (t1 & E1 & O1).
  exists t1. split; [exact E1|]. intros w1.
  rewrite (istep_observe w1 wake _ _ O1).
  unfold MyReceiver.handle_data, bytes_decode. rewrite U. reflexivity.
Qed.

(* ================================================================== *)
(** * The workers, any number of iterations *)

Lemma logged_set_items (q : queue_ref) (l : list bytes) (w : World) :
  logged (set_items q l w) = logged w.
Proof. destruct q; reflexivity. Qed.

Lemma trace_set_items (q : queue_ref) (l : list bytes) (w : World) :
  trace (set_items q l w) = trace w.
Proof. destruct q; reflexivity. Qed.

(** A loop whose iteration takes [k] steps and adds operations of the
    shape [P] to the trace does so [n] times in [n * k] steps. *)
Lemma iterations {R : Type} (loop : itree workerE R) (k : nat)
      (P : list (Z * action) -> Prop) :
  (forall w wake, exists w' wake' ops,
      exec k w wake loop = Some (w', wake', loop) /\
      trace w' = trace w ++ ops /\ P ops) ->
  forall n w wake, exists w' wake' its,
      exec (n * k) w wake loop = Some (w', wake', loop) /\
      trace w' = trace w ++ concat its /\
      List.length its = n /\ Forall P its.
Proof.
  intros body. induction n as [|n IH]; intros w wake.
  - exists w, wake, []. cbn. rewrite app_nil_r. auto.
  - destruct (body w wake) as (w1 & wake1 & ops & E1 & T1 & P1).
    destruct (IH w1 wake1) as (w' & wake' & its & E & T & L & F).
    exists w', wake', (ops :: its). repeat split.
    + cbn [Nat.mul]. rewrite exec_add, E1. exact E.
    + rewrite T, T1. cbn [concat]. now rewrite app_assoc.
    + cbn. now rewrite L.
    + now constructor.
Qed.

Lemma serializer_iterations (self : pytak.QueueWorker) (n : nat)
      (w : World) (wake : Z) :
  exists w' wake' its,
    exec (n * 6) w wake (MySerializer.run self)
    = Some (w', wake', MySerializer.run self) /\
    trace w' = trace w ++ concat its /\
    List.length its = n /\
    Forall (serializer_iteration (pytak.queue self)) its.
Proof.
  apply iterations. clear. intros w wake.
  do 3 eexists. split; [apply serializer_step|]. split.
  - rewrite trace_set_items. reflexivity.
  - unfold serializer_iteration. do 5 eexists. reflexivity.
Qed.

Lemma sender_iterations (self : pytak.QueueWorker) (n : nat)
      (w : World) (wake : Z) :
  exists w' wake' its,
    exec (n * 7) w wake (MySender.run self)
    = Some (w', wake', MySender.run self) /\
    trace w' = trace w ++ concat its /\
    List.length its = n /\
    Forall (sender_iteration (pytak.queue self)) its.
Proof.
  apply iterations. clear. intros w wake.
  do 3 eexists. split; [apply sender_step|]. split.
  - rewrite trace_set_items. reflexivity.
  - unfold sender_iteration. do 6 eexists. reflexivity.
Qed.

(** What a run of [n] steps did is the beginning of what the run of [n]
    iterations does. *)
Lemma exec_within {R : Type} (n m : nat) (w : World) (wake : Z)
      (t : itree workerE R) w1 wake1 t1 w2 wake2 t2 ops1 ops2 :
  exec n w wake t = Some (w1, wake1, t1) ->
  exec (n + m) w wake t = Some (w2, wake2, t2) ->
  trace w1 = trace w ++ ops1 ->
  trace w2 = trace w ++ ops2 ->
  exists rest, ops2 = ops1 ++ rest.
Proof.
  intros E1 E2 T1 T2. rewrite exec_add, E1 in E2.
  apply exec_trace in E2. destruct E2 as [rest T].
  exists rest. rewrite T1, <- app_assoc in T. rewrite T2 in T.
  now apply app_inv_head in T.
Qed.

Lemma sleeps_app (x y : list (Z * action)) :
  sleeps (x ++ y) = sleeps x ++ sleeps y.
Proof. apply flat_map_app. Qed.

Lemma sleeps_iterations (P : list (Z * action) -> Prop) (secs : Z)
      (its : list (list (Z * action))) :
  (forall ops, P ops -> sleeps ops = [secs]) ->
  Forall P its -> forall s, In s (sleeps (concat its)) -> s = secs.
Proof.
  intros HP F. induction F as [|ops its Hops F IH]; cbn [concat]; intros s.
  - intros [].
  - rewrite sleeps_app, (HP _ Hops), in_app_iff. cbn [In]. intuition.
Qed.

Lemma serializer_sleeps (q : queue_ref) (ops : list (Z * action)) :
  serializer_iteration q ops -> sleeps ops = [20].
Proof. intros (a & b0 & c & tp & ts & ->). reflexivity. Qed.

Lemma sender_sleeps (q : queue_ref) (ops : list (Z * action)) :
  sender_iteration q ops -> sleeps ops = [5].
Proof. intros (a & b0 & c & tl & tp & ts & ->). reflexivity. Qed.

(* ================================================================== *)
(** * Producer workers *)

(** The first four steps of an iteration of [MySerializer.run]: the event
    is built and put. *)
Lemma serializer_put (self : pytak.QueueWorker) (w : World) (wake : Z) :
  let q := pytak.queue self in
  let data := ET.tostring
                (pong_event (strftime (op_time w wake 0))
                            (strftime (op_time w wake 1))
                            (strftime (op_time w wake 2 + 3600 * usec_per_sec))) in
  exists t4,
    exec 4 w wake (MySerializer.run self) =
      Some (set_items q (items q w ++ [data])
              (mkWorld (op_time w wake 3) (lag w) (4 + ticks w)
                       (tx w) (rx w) (logged w)
                       (trace w ++ [ (op_time w wake 0, ClockRead);
                                     (op_time w wake 1, ClockRead);
                                     (op_time w wake 2, ClockRead);
                                     (op_time w wake 3, Put q data) ])),
            wake, t4).
Proof.
  intros q data.
  destruct (tak_pong_run w wake) as (t3 & E3 & R3).
  unfold MySerializer.run.
  rewrite (exec_observe 3 w wake _ _
             (observing_observe (unfold_forever_ (S := void) _))).
  change 4%nat with (3 + 1)%nat.
  erewrite exec_bind; [eexists; reflexivity|].
  erewrite exec_call; [|exact E3|exact R3].
  fold data. run.
  subst q. destruct self as [[] cfg]; world; reflexivity.
Qed.

(** The first five steps of an iteration of [MySender.run]: the event is
    built, logged and put. *)
Lemma sender_put (self : pytak.QueueWorker) (w : World) (wake : Z) :
  let q := pytak.queue self in
  let data := ET.tostring
                (marker_event (strftime (op_time w wake 0))
                              (strftime (op_time w wake 1))
                              (strftime (op_time w wake 2 + 60 * usec_per_sec))) in
  let msg := sending (map Byte.to_N data) in
  exists t5,
    exec 5 w wake (MySender.run self) =
      Some (set_items q (items q w ++ [data])
              (mkWorld (op_time w wake 4) (lag w) (5 + ticks w)
                       (tx w) (rx w) (logged w ++ [msg])
                       (trace w ++ [ (op_time w wake 0, ClockRead);
                                     (op_time w wake 1, ClockRead);
                                     (op_time w wake 2, ClockRead);
                                     (op_time w wake 3, Log msg);
                                     (op_time w wake 4, Put q data) ])),
            wake, t5).
Proof.
  intros q data msg.
  destruct (gen_cot_run w wake) as (t3 & E3 & R3).
  unfold MySender.run.
  rewrite (exec_observe 4 w wake _ _
             (observing_observe (unfold_forever_ (S := void) _))).
  change 5%nat with (3 + 2)%nat.
  erewrite exec_bind; [eexists; reflexivity|].
  erewrite exec_call; [|exact E3|exact R3].
  fold data. unfold bytes_decode. unfold data at 1.
  rewrite decode_tostring. fold data. fold msg. run.
  subst q. destruct self as [[] cfg]; world; reflexivity.
Qed.

(** C3, as the code has it.  Every iteration of [MySerializer.run] and of
    [MySender.run] performs, in this order, the construction of an event
    (three clock reads), for [MySender] its log record, the put of its
    encoding, and a sleep of 20 seconds, respectively 5; the interval is
    the same for every instance, whatever its queue and configuration. *)
Theorem producer_iterations_in_order
        (self : pytak.QueueWorker) (n : nat) (w : World) (wake : Z) :
  (exists w' wake' its,
      exec (n * 6) w wake (MySerializer.run self)
      = Some (w', wake', MySerializer.run self) /\
      trace w' = trace w ++ concat its /\
      length its = n /\
      Forall (serializer_iteration (pytak.queue self)) its) /\
  (exists w' wake' its,
      exec (n * 7) w wake (MySender.run self)
      = Some (w', wake', MySender.run self) /\
      trace w' = trace w ++ concat its /\
      length its = n /\
      Forall (sender_iteration (pytak.queue self)) its).
Proof.
  split; [apply serializer_iterations | apply sender_iterations].
Qed.

(** C3, the configurable interval: there is no instance of either worker,
    and no run of it, in which a sleep has another interval than 20,
    respectively 5. *)
Lemma interval_is_not_configurable :
  ~ (exists (self : pytak.QueueWorker) (w : World) (wake : Z) (n : nat)
            w' wake' t' ops secs,
        exec n w wake (MySerializer.run self) = Some (w', wake', t') /\
        trace w' = trace w ++ ops /\ In secs (sleeps ops) /\ secs <> 20)
  /\
  ~ (exists (self : pytak.QueueWorker) (w : World) (wake : Z) (n : nat)
            w' wake' t' ops secs,
        exec n w wake (MySender.run self) = Some (w', wake', t') /\
        trace w' = trace w ++ ops /\ In secs (sleeps ops) /\ secs <> 5).
Proof.
  split.
  - intros (self & w & wake & n & w' & wake' & t' & ops & secs & E & T & I & D).
    destruct (serializer_iterations self n w wake)
      as (w2 & wake2 & its & E2 & T2 & _ & F).
    replace (n * 6)%nat with (n + n * 5)%nat in E2 by lia.
    edestruct (@exec_within void n (n * 5)) as [rest R];
      [exact E | exact E2 | exact T | exact T2 |].
    apply D. apply (sleeps_iterations (@serializer_sleeps _) F).
    rewrite R, sleeps_app. apply in_or_app. now left.
  - intros (self & w & wake & n & w' & wake' & t' & ops & secs & E & T & I & D).
    destruct (sender_iterations self n w wake)
      as (w2 & wake2 & its & E2 & T2 & _ & F).
    replace (n * 7)%nat with (n + n * 6)%nat in E2 by lia.
    edestruct (@exec_within void n (n * 6)) as [rest R];
      [exact E | exact E2 | exact T | exact T2 |].
    apply D. apply (sleeps_iterations (@sender_sleeps _) F).
    rewrite R, sleeps_app. apply in_or_app. now left.
Qed.

(* ================================================================== *)
(** * The consumer worker *)

Lemma receiver_items (self : pytak.QueueWorker) (xs rest : list bytes)
      (w : World) (wake : Z) :
  items (pytak.queue self) w = xs ++ rest ->
  Forall (fun x => utf8_decode x <> None) xs ->
  exists w',
    exec (3 * length xs) w wake (MyReceiver.run self)
    = Some (w', wake, MyReceiver.run self) /\
    items (pytak.queue self) w' = rest /\
    logged w' = logged w ++ map (fun x => received (decoded x)) xs.
Proof.
  revert w. induction xs as [|x xs IH]; intros w H F.
  - exists w. cbn. rewrite app_nil_r. auto.
  - inversion F as [|? ? Hx Hxs]; subst.
    destruct (utf8_decode x) as [text|] eqn:U; [|congruence].
    pose proof (receiver_step self w wake H U) as E3. cbv zeta in E3.
    match type of E3 with _ = Some (?W, _, _) => set (w1 := W) in * end.
    destruct (IH w1) as (w' & E & I & L); auto.
    { unfold w1. apply items_set_items. }
    exists w'. split; [|split].
    + replace (3 * length (x :: xs))%nat with (3 + 3 * length xs)%nat
        by (cbn [length]; lia).
      rewrite exec_add, E3. exact E.
    + exact I.
    + rewrite L. unfold w1. rewrite logged_set_items. cbn [logged map].
      unfold decoded at 2. rewrite U, <- app_assoc. reflexivity.
Qed.

(** C1, as the code has it.  Every item of the receive queue that is UTF-8,
    a well-formed event or not, is logged as received (nothing is parsed,
    so no parse failure is logged), and after the last one the worker waits
    for the next item, still running. *)
Theorem receiver_logs_every_utf8_item
        (self : pytak.QueueWorker) (xs : list bytes) (w : World) (wake : Z) :
  items (pytak.queue self) w = xs ->
  Forall (fun x => utf8_decode x <> None) xs ->
  exists w',
    exec (3 * length xs) w wake (MyReceiver.run self)
    = Some (w', wake, MyReceiver.run self) /\
    logged w' = logged w ++ map (fun x => received (decoded x)) xs /\
    items (pytak.queue self) w' = [] /\
    istep w' wake (MyReceiver.run self) = Blocked /\
    state_of w' wake (MyReceiver.run self) = Running.
Proof.
  intros H F.
  destruct (@receiver_items self xs [] w wake) as (w' & E & I & L); auto.
  { now rewrite app_nil_r. }
  exists w'. repeat split; auto.
  - now apply receiver_blocked.
  - unfold state_of. now rewrite receiver_blocked.
Qed.

Lemma receiver_logs_every_utf8_item_witness :
  let self := pytak.Build_QueueWorker rx_queue [] in
  let w := start_world 0 [b "not xml"] in
  Codec.fromstring (b "not xml") = None /\
  exists w',
    exec 3 w 0 (MyReceiver.run self) = Some (w', 0, MyReceiver.run self) /\
    logged w' = [received (u "not xml")] /\
    items rx_queue w' = [] /\
    istep w' 0 (MyReceiver.run self) = Blocked /\
    state_of w' 0 (MyReceiver.run self) = Running.
Proof.
  intros self w. split; [reflexivity|].
  apply (@receiver_logs_every_utf8_item self [b "not xml"] w 0).
  - reflexivity.
  - constructor; [discriminate | constructor].
Defined.

(** C1, the malformed item that is not UTF-8: [data.decode()] raises in
    [handle_data], nothing catches the exception, the worker is stopped
    and has logged nothing; the item behind it is never taken. *)
Lemma receiver_stops_on_invalid_utf8 :
  let self := pytak.Build_QueueWorker rx_queue [] in
  let w := start_world 0 [[Byte.xff]; b "<event />"] in
  Codec.fromstring [Byte.xff] = None /\
  exists w1 t1,
    exec 1 w 0 (MyReceiver.run self) = Some (w1, 0, t1) /\
    istep w1 0 t1 = Raised UnicodeDecodeError /\
    state_of w1 0 t1 = Stopped UnicodeDecodeError /\
    logged w1 = [] /\
    rx w1 = [b "<event />"] /\
    exec 2 w 0 (MyReceiver.run self) = None.
Proof.
  intros self w. split; [reflexivity|].
  destruct (@receiver_raises self w 0 [Byte.xff] [b "<event />"])
    as (t1 & E1 & R1); [reflexivity | reflexivity |].
  do 2 eexists. split; [exact E1|]. split; [apply R1|]. split; [|split; [|split]].
  - unfold state_of. now rewrite R1.
  - reflexivity.
  - reflexivity.
  - change 2%nat with (1 + 1)%nat. rewrite exec_add, E1.
    cbn [exec]. now rewrite R1.
Qed.

(* ================================================================== *)
(** * The events of the generators *)

Lemma tak_pong_returns (w : World) (wake : Z) :
  let r1 := op_time w wake 0 in
  let r2 := op_time w wake 1 in
  let r3 := op_time w wake 2 in
  exists w',
    returns 3 w wake tak_pong
            (ET.tostring (pong_event (strftime r1) (strftime r2)
                                     (strftime (r3 + 3600 * usec_per_sec))))
            w' /\
    three_clock_reads w w' r1 r2 r3.
Proof.
  intros r1 r2 r3. destruct (tak_pong_run w wake) as (t' & E & R).
  eexists. split; [exists t'; split; [exact E | exact R]|].
  repeat split.
Qed.

Lemma gen_cot_returns (w : World) (wake : Z) :
  let r1 := op_time w wake 0 in
  let r2 := op_time w wake 1 in
  let r3 := op_time w wake 2 in
  exists w',
    returns 3 w wake gen_cot
            (ET.tostring (marker_event (strftime r1) (strftime r2)
                                       (strftime (r3 + 60 * usec_per_sec))))
            w' /\
    three_clock_reads w w' r1 r2 r3.
Proof.
  intros r1 r2 r3. destruct (gen_cot_run w wake) as (t' & E & R).
  eexists. split; [exists t'; split; [exact E | exact R]|].
  repeat split.
Qed.

(** C7.  Two calls of [tak_pong], and two calls of [gen_cot], in any two
    worlds return encodings of events that agree on the tag, the attribute
    names, the children and every attribute but [time], [start] and
    [stale]; each call reads the clock three times and does nothing else:
    queues and log are as before. *)
Theorem construction_deterministic_up_to_timestamps
        (w1 w2 : World) (wake1 wake2 : Z) :
  (exists e1 e2 w1' w2' a1 b1 c1 a2 b2 c2,
      returns 3 w1 wake1 tak_pong (ET.tostring e1) w1' /\
      returns 3 w2 wake2 tak_pong (ET.tostring e2) w2' /\
      same_but_times e1 e2 /\
      three_clock_reads w1 w1' a1 b1 c1 /\
      three_clock_reads w2 w2' a2 b2 c2) /\
  (exists e1 e2 w1' w2' a1 b1 c1 a2 b2 c2,
      returns 3 w1 wake1 gen_cot (ET.tostring e1) w1' /\
      returns 3 w2 wake2 gen_cot (ET.tostring e2) w2' /\
      same_but_times e1 e2 /\
      three_clock_reads w1 w1' a1 b1 c1 /\
      three_clock_reads w2 w2' a2 b2 c2).
Proof.
  split.
  - destruct (tak_pong_returns w1 wake1) as (w1' & R1 & K1).
    destruct (tak_pong_returns w2 wake2) as (w2' & R2 & K2).
    do 10 eexists. split; [exact R1|]. split; [exact R2|].
    split; [split; reflexivity|]. split; [exact K1 | exact K2].
  - destruct (gen_cot_returns w1 wake1) as (w1' & R1 & K1).
    destruct (gen_cot_returns w2 wake2) as (w2' & R2 & K2).
    do 10 eexists. split; [exact R1|]. split; [exact R2|].
    split; [split; reflexivity|]. split; [exact K1 | exact K2].
Qed.

(* ================================================================== *)
(** * Decoding what the encoder writes *)

(** ** The text the encoder writes *)
Lemma charrefs_app (x y : str) : charrefs (x ++ y) = charrefs x ++ charrefs y.
Proof. apply flat_map_app. Qed.

Lemma charrefs_ascii (s : str) :
  Forall (fun c => (c < 128)%N) s -> charrefs s = s.
Proof.
  induction 1 as [|c s Hc Hs IH]; [reflexivity|].
  cbn [charrefs flat_map]. apply N.ltb_lt in Hc. rewrite Hc.
  cbn [app]. f_equal. exact IH.
Qed.

Lemma charrefs_are_ascii (s : str) : Forall (fun c => (c < 128)%N) (charrefs s).
Proof.
  induction s as [|c s IH]; cbn [charrefs flat_map]; [constructor|].
  apply Forall_app. split; [|exact IH].
  destruct (c <? 128)%N eqn:E.
  - constructor; [|constructor]. now apply N.ltb_lt in E.
  - apply Forall_app. split; [|apply Forall_app; split].
    + repeat constructor.
    + apply decimal_ascii.
    + repeat constructor.
Qed.

Lemma encode_ascii_charrefs (s : str) :
  ET.encode_ascii s = map ET.byte_of (charrefs s).
Proof.
  induction s as [|c s IH]; [reflexivity|].
  unfold charrefs, ET.encode_ascii in *. cbn [flat_map].
  rewrite IH. etransitivity; [|symmetry; apply map_app]. f_equal.
  destruct (c <? 128)%N; reflexivity.
Qed.

Lemma text_of_tostring (e : Element) :
  utf8_decode (ET.tostring e) = Some (charrefs (ET._serialize_xml e)).
Proof.
  rewrite decode_tostring. f_equal. unfold ET.tostring.
  rewrite encode_ascii_charrefs, map_map.
  rewrite <- (map_id (charrefs _)) at 2. apply map_ext_in.
  intros c Hc. apply byte_of_to_N.
  pose proof (charrefs_are_ascii (ET._serialize_xml e)) as F.
  rewrite Forall_forall in F. apply F in Hc. lia.
Qed.

(** ** Character references *)
Lemma of_digits_snoc (ds : str) (d : N) :
  Codec.of_digits (ds ++ [d]) = (Codec.of_digits ds * 10 + (d - 48))%N.
Proof. unfold Codec.of_digits. rewrite fold_left_app. reflexivity. Qed.

Lemma of_digits_decimal (f : nat) (c : N) :
  (c < 10 ^ N.of_nat f)%N -> Codec.of_digits (ET.decimal f c) = c.
Proof.
  revert c. induction f as [|f IH]; intros c H.
  - cbn in H. assert (c = 0%N) by lia. subst. reflexivity.
  - cbn [ET.decimal]. rewrite of_digits_snoc.
    destruct (c <? 10)%N eqn:E.
    + apply N.ltb_lt in E. change (Codec.of_digits []) with 0%N.
      rewrite (N.add_comm 48), N.add_sub, N.mod_small by lia. reflexivity.
    + apply N.ltb_ge in E. rewrite IH.
      * rewrite (N.add_comm 48), N.add_sub, (N.mul_comm (c / 10) 10).
        symmetry. apply N.div_mod. lia.
      * rewrite Nat2N.inj_succ, N.pow_succ_r' in H.
        apply N.Div0.div_lt_upper_bound. lia.
Qed.

Lemma decimal_digits (f : nat) (c : N) :
  Forall (fun d => Codec.is_digit d = true) (ET.decimal f c).
Proof.
  revert c. induction f as [|f IH]; intros c; cbn [ET.decimal]; [constructor|].
  apply Forall_app. split.
  - destruct (c <? 10)%N; [constructor | apply IH].
  - constructor; [|constructor]. unfold Codec.is_digit.
    pose proof (N.mod_lt c 10 ltac:(lia)).
    pose proof (N.le_0_l (c mod 10)).
    apply andb_true_iff. split; apply N.leb_le; lia.
Qed.

Lemma decimal_nonempty (f : nat) (c : N) : ET.decimal (S f) c <> [].
Proof. cbn [ET.decimal]. intros H. apply app_eq_nil in H. destruct H. discriminate. Qed.

Lemma take_digits_app (ds rest : str) :
  Forall (fun d => Codec.is_digit d = true) ds ->
  match rest with c :: _ => Codec.is_digit c = false | [] => True end ->
  Codec.take_digits (ds ++ rest) = (ds, rest).
Proof.
  intros F R. induction F as [|d ds Hd F IH]; cbn [app Codec.take_digits].
  - destruct rest as [|c r]; [reflexivity|]. cbn [Codec.take_digits]. now rewrite R.
  - now rewrite Hd, IH.
Qed.

(** ** Attribute values *)
Lemma escape_app (x y : str) :
  ET._escape_attrib (x ++ y) = ET._escape_attrib x ++ ET._escape_attrib y.
Proof. unfold ET._escape_attrib, ET.replace. now rewrite !flat_map_app. Qed.

Lemma value_text_cons (c : N) (v : str) :
  value_text (c :: v) = value_text [c] ++ value_text v.
Proof.
  unfold value_text. change (c :: v) with ([c] ++ v).
  now rewrite escape_app, charrefs_app.
Qed.

Lemma value_char (c : N) :
  value_text [c] =
  if (c =? 38)%N then u "&amp;"
  else if (c =? 60)%N then u "&lt;"
  else if (c =? 62)%N then u "&gt;"
  else if (c =? 34)%N then u "&quot;"
  else if (c =? 13)%N then u "&#13;"
  else if (c =? 10)%N then u "&#10;"
  else if (c =? 9)%N then u "&#09;"
  else if (c <? 128)%N then [c]
  else u "&#" ++ ET.decimal 7 c ++ u ";".
Proof.
  unfold value_text, ET._escape_attrib, ET.replace.
  destruct (N.eqb_spec c 38) as [->|H1]; [reflexivity|].
  destruct (N.eqb_spec c 60) as [->|H2]; [reflexivity|].
  destruct (N.eqb_spec c 62) as [->|H3]; [reflexivity|].
  destruct (N.eqb_spec c 34) as [->|H4]; [reflexivity|].
  destruct (N.eqb_spec c 13) as [->|H5]; [reflexivity|].
  destruct (N.eqb_spec c 10) as [->|H6]; [reflexivity|].
  destruct (N.eqb_spec c 9) as [->|H7]; [reflexivity|].
  apply N.eqb_neq in H1, H2, H3, H4, H5, H6, H7.
  cbn [flat_map app]. rewrite H1. cbn [flat_map app]. rewrite H2.
  cbn [flat_map app]. rewrite H3. cbn [flat_map app]. rewrite H4.
  cbn [flat_map app]. rewrite H5. cbn [flat_map app]. rewrite H6.
  cbn [flat_map app]. rewrite H7. cbn [flat_map app charrefs].
  now rewrite app_nil_r.
Qed.

(** The text of a value has no quote and no [<] in it. *)
Lemma value_text_safe (v : str) :
  Forall (fun x => x <> 34%N /\ x <> 60%N) (value_text v).
Proof.
  induction v as [|c v IH]; [constructor|].
  rewrite value_text_cons. apply Forall_app. split; [|exact IH].
  rewrite value_char.
  repeat match goal with
         | |- context [if (?x =? ?y)%N then _ else _] =>
           destruct (N.eqb_spec x y) as [?|?];
             [repeat constructor; discriminate|]
         end.
  destruct (c <? 128)%N.
  - repeat constructor; assumption.
  - apply Forall_app. split; [repeat constructor; discriminate|].
    apply Forall_app. split; [|repeat constructor; discriminate].
    eapply Forall_impl; [|apply (decimal_digits 7 c)].
    cbn beta. unfold Codec.is_digit. intros a Ha.
    apply andb_true_iff in Ha. rewrite !N.leb_le in Ha. lia.
Qed.

Lemma take_until_app (q : N) (l rest : str) :
  Forall (fun x => x <> q /\ x <> 60%N) l ->
  Codec.take_until q (l ++ q :: rest) = Some (l, rest).
Proof.
  induction 1 as [|c l [H1 H2] F IH]; cbn [app Codec.take_until].
  - now rewrite N.eqb_refl.
  - apply N.eqb_neq in H1, H2. now rewrite H1, H2, IH.
Qed.

Lemma unescape_value (v : str) :
  Forall (fun c => (c < 1114112)%N) v ->
  forall fuel, (length (value_text v) <= fuel)%nat ->
  Codec.unescape fuel (value_text v) = Some v.
Proof.
  induction 1 as [|c v Hc F IH]; intros fuel L; [destruct fuel; reflexivity|].
  rewrite value_text_cons in *. rewrite length_app in L.
  rewrite value_char in *.
  repeat match goal with
         | |- context [if (?x =? ?y)%N then _ else _] =>
           destruct (N.eqb_spec x y) as [->|?];
             [ destruct fuel as [|fuel]; [cbn in L; lia|];
               cbn in L |- *; rewrite IH by lia; reflexivity |]
         end.
  destruct (c <? 128)%N eqn:E.
  - destruct fuel as [|fuel]; [cbn in L; lia|].
    cbn [app Codec.unescape]. cbn in L.
    repeat match goal with
           | H : ?x <> ?y |- context [(?x =? ?y)%N] =>
             rewrite (proj2 (N.eqb_neq x y) H)
           end.
    rewrite IH by lia. cbn [option_map]. do 2 f_equal.
    unfold Codec.is_space.
    destruct (N.eqb_spec c 32) as [->|_]; [reflexivity|]. cbn [orb].
    repeat match goal with
           | H : ?x <> ?y |- context [(?x =? ?y)%N] =>
             rewrite (proj2 (N.eqb_neq x y) H)
           end.
    reflexivity.
  - destruct fuel as [|fuel]; [cbn in L; lia|].
    cbn [app u map list_ascii_of_string Codec.unescape].
    change (N_of_ascii "&"%char) with 38%N. cbn [N.eqb Pos.eqb].
    change (N_of_ascii "#"%char) with 35%N.
    unfold Codec.reference. cbn [Codec.strip u map list_ascii_of_string].
    cbn -[ET.decimal Codec.take_digits Codec.of_digits Codec.unescape value_text].
    rewrite <- app_assoc.
    rewrite take_digits_app; [|apply decimal_digits|reflexivity].
    destruct (ET.decimal 7 c) as [|d ds] eqn:D; [now apply decimal_nonempty in D|].
    cbn -[ET.decimal Codec.take_digits Codec.of_digits Codec.unescape value_text].
    rewrite <- D, of_digits_decimal by (cbn; lia).
    rewrite IH; [reflexivity|].
    rewrite !length_app in L. cbn in L. lia.
Qed.

(** ** Names *)
Lemma name_char_ascii (c : N) : Codec.is_name_char c = true -> (c < 128)%N.
Proof.
  unfold Codec.is_name_char, Codec.is_name_start, Codec.is_digit.
  rewrite !orb_true_iff, !andb_true_iff, !N.leb_le, !N.eqb_eq. lia.
Qed.

Lemma name_start_char (c : N) :
  Codec.is_name_start c = true -> Codec.is_name_char c = true.
Proof. unfold Codec.is_name_char. now intros ->. Qed.

Lemma name_start_not_space (c : N) :
  Codec.is_name_start c = true -> Codec.is_space c = false.
Proof.
  unfold Codec.is_name_start, Codec.is_space.
  rewrite !orb_true_iff, !andb_true_iff, !N.leb_le, !N.eqb_eq.
  intros H. rewrite !orb_false_iff, !N.eqb_neq. lia.
Qed.

Lemma xml_name_chars (n : str) :
  xml_name n = true -> Forall (fun c => Codec.is_name_char c = true) n.
Proof.
  destruct n as [|c r]; [discriminate|]. cbn [xml_name].
  rewrite andb_true_iff, forallb_forall. intros [H1 H2].
  constructor; [now apply name_start_char | now apply Forall_forall].
Qed.

Lemma xml_name_ascii (n : str) :
  xml_name n = true -> charrefs n = n.
Proof.
  intros H. apply charrefs_ascii.
  eapply Forall_impl; [|apply (xml_name_chars _ H)].
  apply name_char_ascii.
Qed.

Lemma take_name_app (n rest : str) :
  Forall (fun c => Codec.is_name_char c = true) n ->
  stops_name rest ->
  Codec.take_name (n ++ rest) = (n, rest).
Proof.
  intros F R. induction F as [|c n Hc F IH]; cbn [app Codec.take_name].
  - destruct rest as [|c r]; [reflexivity|]. cbn [Codec.take_name].
    cbn in R. now rewrite R.
  - now rewrite Hc, IH.
Qed.

Lemma skip_space_name (n rest : str) :
  xml_name n = true -> Codec.skip_space (n ++ rest) = n ++ rest.
Proof.
  destruct n as [|c r]; [discriminate|]. cbn [xml_name app Codec.skip_space].
  rewrite andb_true_iff. intros [H _].
  now rewrite (name_start_not_space _ H).
Qed.

Lemma starts_with_name_app (n rest : str) :
  xml_name n = true -> Codec.starts_with_name (n ++ rest) = true.
Proof.
  destruct n as [|c r]; [discriminate|]. cbn [xml_name app Codec.starts_with_name].
  rewrite andb_true_iff. now intros [H _].
Qed.

(** ** Attributes *)
Lemma charrefs_write_attr (kv : str * str) :
  xml_name (fst kv) = true ->
  charrefs (ET.write_attr kv) = attr_text kv.
Proof.
  intros H. unfold ET.write_attr, attr_text.
  rewrite !charrefs_app, (xml_name_ascii _ H). reflexivity.
Qed.

Lemma charrefs_attrs (a : list (str * str)) :
  forallb (fun kv => xml_name (fst kv)
                     && forallb (fun c => (c <? 1114112)%N) (snd kv)) a = true ->
  charrefs (flat_map ET.write_attr a) = flat_map attr_text a.
Proof.
  induction a as [|kv a IH]; [reflexivity|]. cbn [forallb flat_map].
  rewrite !andb_true_iff. intros [[H1 _] H2].
  now rewrite charrefs_app, charrefs_write_attr, IH.
Qed.

Lemma parse_attrs_text (a : list (str * str)) :
  attrs_ok a = true ->
  forall fuel rest,
    (length a < fuel)%nat ->
    Codec.starts_with_name (Codec.skip_space rest) = false ->
    Codec.parse_attrs fuel (flat_map attr_text a ++ rest)
    = Some (a, Codec.skip_space rest).
Proof.
  unfold attrs_ok.
  induction a as [|[k v] a IH]; intros H fuel rest L R.
  - destruct fuel as [|fuel]; [cbn in L; lia|].
    cbn [flat_map app Codec.parse_attrs].
    destruct (Codec.skip_space rest) as [|c r0]; [reflexivity|].
    cbn [Codec.starts_with_name] in R. now rewrite R.
  - destruct fuel as [|fuel]; [cbn in L; lia|].
    cbn [forallb unique_keys fst snd] in H.
    rewrite !andb_true_iff in H. destruct H as [[[Hk Hv] Ha] [Hu Hus]].
    apply negb_true_iff in Hu.
    cbn [flat_map]. unfold attr_text at 1. cbn [fst snd].
    rewrite <- !app_assoc.
    cbn [Codec.parse_attrs].
    change (u " " ++ k ++ ?x) with (32%N :: k ++ x).
    cbn [Codec.skip_space]. change (Codec.is_space 32) with true. cbv iota.
    rewrite skip_space_name by exact Hk.
    destruct k as [|c0 k']; [discriminate|].
    cbn [app]. 
    assert (Hs : Codec.is_name_start c0 = true).
    { cbn [xml_name] in Hk. now apply andb_true_iff in Hk. }
    rewrite Hs. cbn [negb].
    change (c0 :: k' ++ ?x) with ((c0 :: k') ++ x).
    rewrite take_name_app; [|now apply xml_name_chars|reflexivity].
    cbn -[value_text Codec.take_until Codec.unescape Codec.parse_attrs
          Codec.has_key].
    rewrite take_until_app by apply value_text_safe.
    rewrite unescape_value;
      [| apply Forall_forall; intros x Hx; rewrite forallb_forall in Hv;
         apply Hv in Hx; now apply N.ltb_lt | lia].
    rewrite IH; [| now rewrite Ha, Hus | cbn in L; lia | exact R].
    now rewrite Hu.
Qed.

(** ** Elements *)
Lemma Element_induction (P : Element -> Prop) :
  (forall t a c, Forall P c -> P (Elem t a c)) -> forall e, P e.
Proof.
  intros H. fix IH 1. intros [t a c]. apply H.
  induction c as [|x c IHc]; constructor; [apply IH | exact IHc].
Qed.

Lemma charrefs_flat_map {A : Type} (f : A -> str) (l : list A) :
  charrefs (flat_map f l) = flat_map (fun x => charrefs (f x)) l.
Proof.
  induction l as [|x l IH]; [reflexivity|].
  cbn [flat_map]. now rewrite charrefs_app, IH.
Qed.

Lemma element_text_eq (t : str) (a : list (str * str)) (c : list Element) :
  well_formed (Elem t a c) = true ->
  element_text (Elem t a c)
  = u "<" ++ t ++ flat_map attr_text a
    ++ match c with
       | [] => u " />"
       | _ => u ">" ++ flat_map element_text c ++ u "</" ++ t ++ u ">"
       end.
Proof.
  cbn [well_formed]. rewrite !andb_true_iff. intros [[[Ht Ha] _] _].
  unfold element_text at 1. cbn [ET._serialize_xml].
  rewrite !charrefs_app, (xml_name_ascii _ Ht), (charrefs_attrs _ Ha).
  destruct c as [|x c]; [reflexivity|].
  rewrite !charrefs_app, charrefs_flat_map, (xml_name_ascii _ Ht). reflexivity.
Qed.

Lemma strip_app (p rest : str) : Codec.strip p (p ++ rest) = Some rest.
Proof.
  induction p as [|c p IH]; [reflexivity|].
  cbn [app Codec.strip]. now rewrite N.eqb_refl.
Qed.

Lemma parse_children_text (c : list Element) :
  Forall (fun e => well_formed e = true ->
                   forall fuel rest, (height e <= fuel)%nat ->
                     Codec.parse_element fuel (element_text e ++ rest)
                     = Some (e, rest)) c ->
  forallb well_formed c = true ->
  forall fuel rest,
    (children_fuel c <= fuel)%nat ->
    Codec.parse_children fuel (flat_map element_text c ++ u "</" ++ rest)
    = Some (c, rest).
Proof.
  induction 1 as [|x c Hx F IH]; intros W fuel rest L.
  - destruct fuel as [|fuel]; [cbn in L; lia|].
    cbn [flat_map app]. cbn [Codec.parse_children].
    now rewrite strip_app.
  - destruct fuel as [|fuel]; [cbn in L; lia|].
    cbn [forallb] in W. apply andb_true_iff in W. destruct W as [Wx Wc].
    cbn [children_fuel fold_right] in L. fold (children_fuel c) in L.
    cbn [flat_map]. rewrite <- app_assoc.
    cbn [Codec.parse_children].
    assert (S1 : Codec.strip (u "</")
                   (element_text x ++ flat_map element_text c ++ u "</" ++ rest)
                 = None).
    { destruct x as [t a cs]. rewrite element_text_eq by exact Wx.
      cbn [well_formed] in Wx. rewrite !andb_true_iff in Wx.
      destruct Wx as [[[Ht _] _] _].
      destruct t as [|t0 t']; [discriminate|].
      cbn [xml_name] in Ht. apply andb_true_iff in Ht. destruct Ht as [Ht _].
      cbn [app u map list_ascii_of_string Codec.strip].
      change (N_of_ascii "<"%char) with 60%N. rewrite N.eqb_refl.
      change (N_of_ascii "/"%char) with 47%N.
      destruct (N.eqb_spec 47 t0) as [<-|]; [discriminate Ht | reflexivity]. }
    rewrite S1, Hx by (auto; lia).
    now rewrite IH by (auto; lia).
Qed.

Lemma attrs_text_length (a : list (str * str)) :
  (length a <= length (flat_map attr_text a))%nat.
Proof.
  induction a as [|kv a IH]; [reflexivity|].
  cbn [flat_map length]. rewrite length_app. unfold attr_text at 1.
  cbn [u map list_ascii_of_string app length]. lia.
Qed.

Lemma stops_name_attrs (a : list (str * str)) (rest : str) :
  stops_name rest -> stops_name (flat_map attr_text a ++ rest).
Proof. destruct a as [|kv a]; [auto | reflexivity]. Qed.

Theorem parse_element_text (e : Element) :
  well_formed e = true ->
  forall fuel rest,
    (height e <= fuel)%nat ->
    Codec.parse_element fuel (element_text e ++ rest) = Some (e, rest).
Proof.
  induction e as [t a c IH] using Element_induction. intros W fuel rest L.
  destruct fuel as [|fuel]; [cbn in L; lia|].
  rewrite element_text_eq by exact W.
  cbn [well_formed] in W. rewrite !andb_true_iff in W.
  destruct W as [[[Ht Ha] Hu] Hc].
  cbn [height] in L. fold (children_fuel c) in L.
  rewrite <- !app_assoc. cbn [Codec.parse_element].
  rewrite strip_app, starts_with_name_app by exact Ht. cbn [negb].
  destruct c as [|x c].
  - rewrite take_name_app;
      [| now apply xml_name_chars | apply stops_name_attrs; reflexivity].
    rewrite parse_attrs_text;
      [| unfold attrs_ok; now rewrite Ha, Hu
       | rewrite length_app; pose proof (attrs_text_length a); lia
       | reflexivity].
    reflexivity.
  - rewrite <- !app_assoc.
    rewrite take_name_app;
      [| now apply xml_name_chars | apply stops_name_attrs; reflexivity].
    rewrite parse_attrs_text;
      [| unfold attrs_ok; now rewrite Ha, Hu
       | rewrite length_app; pose proof (attrs_text_length a); lia
       | reflexivity].
    change (Codec.skip_space (u ">" ++ ?r)) with (u ">" ++ r).
    change (Codec.strip (u "/>") (u ">" ++ ?r)) with (@None str).
    cbv iota. rewrite strip_app.
    rewrite parse_children_text by (assumption || lia).
    rewrite take_name_app; [| now apply xml_name_chars | reflexivity].
    rewrite str_eqb_refl. cbn [negb].
    change (Codec.skip_space (u ">" ++ ?r)) with (u ">" ++ r).
    now rewrite strip_app.
Qed.

Lemma height_le_text (e : Element) :
  (2 <= height e <= length (element_text e))%nat.
Proof.
  induction e as [t a c IH] using Element_induction.
  unfold element_text. cbn [height ET._serialize_xml].
  fold (children_fuel c).
  assert (K : (1 <= children_fuel c
               <= length (charrefs (flat_map ET._serialize_xml c)) + 1)%nat).
  { clear t a. induction IH as [|x c Hx F IHc]; [cbn; lia|].
    cbn [children_fuel fold_right flat_map]. fold (children_fuel c).
    rewrite charrefs_app, length_app. unfold element_text in Hx. lia. }
  rewrite !charrefs_app, !length_app.
  destruct c as [|x c].
  - cbn. lia.
  - rewrite !charrefs_app, !length_app.
    change (length (charrefs (u "<"))) with 1%nat.
    change (length (charrefs (u ">"))) with 1%nat.
    change (length (charrefs (u "</"))) with 2%nat. lia.
Qed.

(** Decoding the encoding of an element gives the element back. *)
Theorem fromstring_tostring (e : Element) :
  well_formed e = true -> Codec.fromstring (ET.tostring e) = Some e.
Proof.
  intros W. unfold Codec.fromstring. rewrite text_of_tostring.
  fold (element_text e).
  assert (S0 : Codec.skip_space (element_text e) = element_text e).
  { destruct e as [t a c]. rewrite element_text_eq by exact W. reflexivity. }
  rewrite S0. rewrite <- (app_nil_r (element_text e)) at 2.
  rewrite parse_element_text by (assumption || (pose proof (height_le_text e); lia)).
  reflexivity.
Qed.

Lemma strftime_code_points (t : Z) :
  forallb (fun c => (c <? 1114112)%N) (strftime t) = true.
Proof.
  apply forallb_forall. intros c Hc.
  pose proof (strftime_chars t) as F. rewrite Forall_forall in F.
  apply F in Hc. apply N.ltb_lt. lia.
Qed.

Lemma pong_event_well_formed (t1 t2 t3 : Z) :
  well_formed (pong_event (strftime t1) (strftime t2) (strftime t3)) = true.
Proof.
  unfold pong_event. cbn [well_formed forallb fst snd].
  rewrite !strftime_code_points. reflexivity.
Qed.

Lemma marker_event_well_formed (t1 t2 t3 : Z) :
  well_formed (marker_event (strftime t1) (strftime t2) (strftime t3)) = true.
Proof.
  unfold marker_event. cbn [well_formed forallb fst snd].
  rewrite !strftime_code_points. reflexivity.
Qed.

(* ================================================================== *)
(** * The order of time stamps *)

Ltac euclid := Z.to_euclidean_division_equations; lia.

Lemma civil_range (z : Z) :
  let '(y, m, d) := civil_from_days z in
  1 <= m <= 12 /\ 1 <= d <= 31.
Proof.
  unfold civil_from_days. cbv zeta.
  set (z1 := z + 719468). set (era := z1 / 146097). set (doe := z1 - era * 146097).
  assert (Hdoe : 0 <= doe <= 146096) by (unfold doe, era; euclid).
  clearbody doe. clear z z1 era.
  set (yoe := (doe - doe / 1460 + doe / 36524 - doe / 146096) / 365).
  assert (Hyoe : 0 <= yoe <= 399) by (unfold yoe; euclid).
  set (doy := doe - (365 * yoe + yoe / 4 - yoe / 100)).
  assert (Hdoy : 0 <= doy <= 365) by (unfold doy, yoe; euclid).
  clearbody doy. clear doe Hdoe yoe Hyoe.
  set (mp := (5 * doy + 2) / 153).
  assert (Hmp : 0 <= mp <= 11) by (unfold mp; euclid).
  assert (Hd : 1 <= doy - (153 * mp + 2) / 5 + 1 <= 31) by (unfold mp; euclid).
  destruct (mp <? 10) eqn:E; [apply Z.ltb_lt in E | apply Z.ltb_ge in E]; lia.
Qed.

Lemma civil_mono (z z' : Z) :
  z < z' -> lex3 (civil_from_days z) (civil_from_days z').
Proof.
  intros H. unfold civil_from_days. cbv zeta.
  set (z1 := z + 719468). set (z1' := z' + 719468).
  assert (H1 : z1 < z1') by (unfold z1, z1'; lia). clearbody z1 z1'. clear z z' H.
  set (era := z1 / 146097). set (era' := z1' / 146097).
  set (doe := z1 - era * 146097). set (doe' := z1' - era' * 146097).
  assert (Hdoe : 0 <= doe <= 146096) by (unfold doe, era; euclid).
  assert (Hdoe' : 0 <= doe' <= 146096) by (unfold doe', era'; euclid).
  assert (He : era < era' \/ (era = era' /\ doe < doe'))
    by (unfold doe, doe', era, era'; euclid).
  clearbody doe doe' era era'. clear z1 z1' H1.
  set (yoe := (doe - doe / 1460 + doe / 36524 - doe / 146096) / 365).
  set (yoe' := (doe' - doe' / 1460 + doe' / 36524 - doe' / 146096) / 365).
  assert (Hyoe : 0 <= yoe <= 399) by (unfold yoe; euclid).
  assert (Hyoe' : 0 <= yoe' <= 399) by (unfold yoe'; euclid).
  set (doy := doe - (365 * yoe + yoe / 4 - yoe / 100)).
  set (doy' := doe' - (365 * yoe' + yoe' / 4 - yoe' / 100)).
  assert (Hdoy : 0 <= doy <= 365) by (unfold doy, yoe; euclid).
  assert (Hdoy' : 0 <= doy' <= 365) by (unfold doy', yoe'; euclid).
  assert (Hy : era < era' \/ (era = era' /\ (yoe < yoe' \/ (yoe = yoe' /\ doy < doy')))).
  { destruct He as [He|[He Hd]]; [now left|]. right. split; [exact He|].
    unfold doy, doy', yoe, yoe'. euclid. }
  clearbody doy doy' yoe yoe'. clear doe doe' Hdoe Hdoe' He.
  set (mp := (5 * doy + 2) / 153). set (mp' := (5 * doy' + 2) / 153).
  assert (Hmp : 0 <= mp <= 11) by (unfold mp; euclid).
  assert (Hmp' : 0 <= mp' <= 11) by (unfold mp'; euclid).
  set (d := doy - (153 * mp + 2) / 5 + 1). set (d' := doy' - (153 * mp' + 2) / 5 + 1).
  assert (Hm : doy < doy' -> mp < mp' \/ (mp = mp' /\ d < d'))
    by (unfold d, d', mp, mp'; intros; euclid).
  assert (Hq : doy = doy' -> mp = mp' /\ d = d')
    by (unfold d, d', mp, mp'; intros; subst; auto).
  clearbody d d' mp mp'.
  unfold lex3.
  destruct (mp <? 10) eqn:E; destruct (mp' <? 10) eqn:E';
    [apply Z.ltb_lt in E | apply Z.ltb_lt in E | apply Z.ltb_ge in E | apply Z.ltb_ge in E];
    [apply Z.ltb_lt in E' | apply Z.ltb_ge in E' | apply Z.ltb_lt in E' | apply Z.ltb_ge in E'];
    repeat match goal with |- context [?a <=? ?b] => destruct (Z.leb_spec a b) end;
    try lia.
Qed.

Lemma str_ltb_app (x x' y y' : str) :
  length x = length x' ->
  str_ltb (x ++ y) (x' ++ y') = str_ltb x x' || (str_eqb x x' && str_ltb y y').
Proof.
  revert x'. induction x as [|c x IH]; intros [|d x'] L; try discriminate.
  - cbn. now destruct (str_ltb y y').
  - cbn [app str_ltb str_eqb]. rewrite IH by (cbn in L; lia).
    destruct (c <? d)%N, (c =? d)%N, (str_ltb x x'), (str_eqb x x'); reflexivity.
Qed.

Lemma str_eqb_app (x x' y y' : str) :
  length x = length x' ->
  str_eqb (x ++ y) (x' ++ y') = str_eqb x x' && str_eqb y y'.
Proof.
  revert x'. induction x as [|c x IH]; intros [|d x'] L; try discriminate.
  - reflexivity.
  - cbn [app str_eqb]. rewrite IH by (cbn in L; lia).
    now rewrite andb_assoc.
Qed.

Lemma digit_ltb (a b : Z) :
  (digit a <? digit b)%N = (a mod 10 <? b mod 10).
Proof.
  unfold digit.
  pose proof (Z.mod_pos_bound a 10 ltac:(lia)).
  pose proof (Z.mod_pos_bound b 10 ltac:(lia)).
  destruct (Z.ltb_spec (a mod 10) (b mod 10)).
  - apply N.ltb_lt. lia.
  - apply N.ltb_ge. lia.
Qed.

Lemma digit_eqb (a b : Z) :
  (digit a =? digit b)%N = (a mod 10 =? b mod 10).
Proof.
  unfold digit.
  pose proof (Z.mod_pos_bound a 10 ltac:(lia)).
  pose proof (Z.mod_pos_bound b 10 ltac:(lia)).
  destruct (Z.eqb_spec (a mod 10) (b mod 10)).
  - apply N.eqb_eq. lia.
  - apply N.eqb_neq. lia.
Qed.

Lemma zfill_order (w : nat) (a c : Z) :
  0 <= a < 10 ^ Z.of_nat w -> 0 <= c < 10 ^ Z.of_nat w ->
  str_ltb (zfill w a) (zfill w c) = (a <? c) /\
  str_eqb (zfill w a) (zfill w c) = (a =? c).
Proof.
  revert a c. induction w as [|w IH]; intros a c Ha Hc.
  - cbn in Ha, Hc. assert (a = 0) by lia. assert (c = 0) by lia. subst. auto.
  - rewrite Nat2Z.inj_succ, Z.pow_succ_r in Ha, Hc by lia.
    cbn [zfill].
    rewrite str_ltb_app, str_eqb_app by (now rewrite !zfill_length).
    destruct (IH (a / 10) (c / 10)) as [I1 I2];
      [Z.to_euclidean_division_equations; lia
      |Z.to_euclidean_division_equations; lia|].
    rewrite I1, I2. cbn [str_ltb str_eqb].
    rewrite digit_ltb, digit_eqb, !andb_true_r, !andb_false_r, !orb_false_r.
    split.
    + destruct (Z.ltb_spec (a / 10) (c / 10)), (Z.eqb_spec (a / 10) (c / 10)),
        (Z.ltb_spec (a mod 10) (c mod 10)), (Z.ltb_spec a c);
        try reflexivity; exfalso; Z.to_euclidean_division_equations; lia.
    + destruct (Z.eqb_spec (a / 10) (c / 10)), (Z.eqb_spec (a mod 10) (c mod 10)),
        (Z.eqb_spec a c);
        try reflexivity; exfalso; Z.to_euclidean_division_equations; lia.
Qed.

(** One field of a time stamp and the punctuation behind it. *)
Lemma field_order (w : nat) (a c : Z) (p : string) (x y : str) :
  0 <= a < 10 ^ Z.of_nat w -> 0 <= c < 10 ^ Z.of_nat w ->
  str_ltb (zfill w a ++ u p ++ x) (zfill w c ++ u p ++ y)
  = (a <? c) || ((a =? c) && str_ltb x y).
Proof.
  intros Ha Hc. destruct (zfill_order w Ha Hc) as [L E].
  rewrite str_ltb_app by (now rewrite !zfill_length).
  rewrite L, E. rewrite str_ltb_app by reflexivity.
  rewrite str_eqb_refl.
  assert (N0 : str_ltb (u p) (u p) = false).
  { induction (u p) as [|q l IHl]; [reflexivity|].
    cbn [str_ltb]. now rewrite N.ltb_irrefl, N.eqb_refl, IHl. }
  now rewrite N0.
Qed.

Lemma last_field_order (w : nat) (a c : Z) (p : string) :
  0 <= a < 10 ^ Z.of_nat w -> 0 <= c < 10 ^ Z.of_nat w ->
  str_ltb (zfill w a ++ u p) (zfill w c ++ u p) = (a <? c).
Proof.
  intros Ha Hc. pose proof (@field_order w a c p [] [] Ha Hc) as F.
  rewrite !app_nil_r in F. rewrite F. cbn [str_ltb].
  now rewrite andb_false_r, orb_false_r.
Qed.

Lemma civil_year_range (z : Z) :
  -719162 <= z <= 2932896 ->
  let '(y, m, d) := civil_from_days z in 1 <= y <= 9999.
Proof.
  intros H.
  assert (L : z = -719162 \/ -719162 < z) by lia.
  assert (U : z = 2932896 \/ z < 2932896) by lia.
  destruct L as [->|L]; [vm_compute; intuition discriminate|].
  destruct U as [->|U]; [vm_compute; intuition discriminate|].
  apply civil_mono in L. apply civil_mono in U.
  change (civil_from_days (-719162)) with (1, 1, 1) in L.
  change (civil_from_days 2932896) with (9999, 12, 31) in U.
  pose proof (civil_range z) as R.
  destruct (civil_from_days z) as [[y m] d]. unfold lex3 in L, U. lia.
Qed.

Lemma strftime_order (t t' : Z) :
  datetime_min <= t -> t <= t' -> t' < datetime_max ->
  str_ltb (strftime t') (strftime t) = false.
Proof.
  unfold datetime_min, datetime_max, strftime, usec_per_day, usec_per_sec.
  intros Hmin Hle Hmax.
  set (day := t / (86400 * 1000000)). set (day' := t' / (86400 * 1000000)).
  set (us := t mod (86400 * 1000000)). set (us' := t' mod (86400 * 1000000)).
  assert (Hday : -719162 <= day <= 2932896) by (unfold day; Z.to_euclidean_division_equations; lia).
  assert (Hday' : -719162 <= day' <= 2932896) by (unfold day'; Z.to_euclidean_division_equations; lia).
  assert (Hus : 0 <= us < 86400 * 1000000) by (unfold us; Z.to_euclidean_division_equations; lia).
  assert (Hus' : 0 <= us' < 86400 * 1000000) by (unfold us'; Z.to_euclidean_division_equations; lia).
  assert (Hd : day < day' \/ (day = day' /\ us <= us'))
    by (unfold day, day', us, us'; Z.to_euclidean_division_equations; lia).
  clearbody day day' us us'. clear t t' Hmin Hle Hmax.
  pose proof (civil_year_range Hday) as Y. pose proof (civil_year_range Hday') as Y'.
  pose proof (civil_range day) as R. pose proof (civil_range day') as R'.
  assert (C : day < day' -> lex3 (civil_from_days day) (civil_from_days day'))
    by apply civil_mono.
  assert (Q : day = day' -> civil_from_days day = civil_from_days day')
    by (now intros ->).
  destruct (civil_from_days day) as [[y m] d].
  destruct (civil_from_days day') as [[y' m'] d'].
  unfold lex3 in C.
  rewrite !field_order, last_field_order;
    try (cbn; Z.to_euclidean_division_equations; lia).
  destruct Hd as [Hd|[Hd Hu]].
  - specialize (C Hd). clear Q.
    destruct (Z.ltb_spec y' y); [lia|].
    destruct (Z.eqb_spec y' y); [|reflexivity].
    destruct (Z.ltb_spec m' m); [lia|].
    destruct (Z.eqb_spec m' m); [|reflexivity].
    destruct (Z.ltb_spec d' d); [lia|].
    destruct (Z.eqb_spec d' d); [lia|reflexivity].
  - specialize (Q Hd). inversion Q; subst. clear C Q.
    rewrite !Z.ltb_irrefl, !Z.eqb_refl. cbn [orb andb].
    set (s := us / 1000000). set (s' := us' / 1000000).
    set (f := us mod 1000000). set (f' := us' mod 1000000).
    assert (Hs : s < s' \/ (s = s' /\ f <= f'))
      by (unfold s, s', f, f'; Z.to_euclidean_division_equations; lia).
    clearbody s s' f f'. clear us us' Hus Hus' Hu.
    set (h := s / 3600). set (h' := s' / 3600).
    set (r := s mod 3600). set (r' := s' mod 3600).
    assert (E1 : s / 60 mod 60 = r / 60)
      by (unfold r; Z.to_euclidean_division_equations; lia).
    assert (E2 : s mod 60 = r mod 60)
      by (unfold r; Z.to_euclidean_division_equations; lia).
    assert (E1' : s' / 60 mod 60 = r' / 60)
      by (unfold r'; Z.to_euclidean_division_equations; lia).
    assert (E2' : s' mod 60 = r' mod 60)
      by (unfold r'; Z.to_euclidean_division_equations; lia).
    rewrite E1, E2, E1', E2'.
    assert (Hh : h < h' \/ (h = h' /\ (r < r' \/ (r = r' /\ f <= f'))))
      by (unfold h, h', r, r'; Z.to_euclidean_division_equations; lia).
    clearbody h h' r r'. clear s s' Hs E1 E2 E1' E2'.
    destruct (Z.ltb_spec h' h); [lia|].
    destruct (Z.eqb_spec h' h); [|reflexivity]. cbn [orb andb].
    assert (Hr : r / 60 < r' / 60 \/
                 (r / 60 = r' / 60 /\
                  (r mod 60 < r' mod 60 \/ (r mod 60 = r' mod 60 /\ f <= f'))))
      by (Z.to_euclidean_division_equations; lia).
    destruct (Z.ltb_spec (r' / 60) (r / 60)); [lia|].
    destruct (Z.eqb_spec (r' / 60) (r / 60)); [|reflexivity]. cbn [orb andb].
    destruct (Z.ltb_spec (r' mod 60) (r mod 60)); [lia|].
    destruct (Z.eqb_spec (r' mod 60) (r mod 60)); [|reflexivity]. cbn [orb andb].
    apply Z.ltb_ge. lia.
Qed.

(* ================================================================== *)
(** * The round trip *)

Lemma decode_pong_event (t1 t2 t3 : Z) :
  let e := pong_event (strftime t1) (strftime t2) (strftime t3) in
  Codec.fromstring (ET.tostring e) = Some e /\
  Codec.decode (ET.tostring e)
  = if Codec.precedes (strftime t3) (strftime t2)
    then inl Codec.ValidationError else inr e.
Proof.
  intros e.
  assert (F : Codec.fromstring (ET.tostring e) = Some e)
    by apply fromstring_tostring, pong_event_well_formed.
  split; [exact F|]. unfold Codec.decode. rewrite F.
  unfold e, pong_event. cbv -[strftime Codec.precedes]. reflexivity.
Qed.

Lemma decode_marker_event (t1 t2 t3 : Z) :
  let e := marker_event (strftime t1) (strftime t2) (strftime t3) in
  Codec.fromstring (ET.tostring e) = Some e /\
  Codec.decode (ET.tostring e)
  = if Codec.precedes (strftime t3) (strftime t2)
    then inl Codec.ValidationError else inr e.
Proof.
  intros e.
  assert (F : Codec.fromstring (ET.tostring e) = Some e)
    by apply fromstring_tostring, marker_event_well_formed.
  split; [exact F|]. unfold Codec.decode. rewrite F.
  unfold e, marker_event. cbv -[strftime Codec.precedes]. reflexivity.
Qed.

(** A [stale] that is not before its [start], both within the range of
    [datetime], passes the check of [decode]. *)
Lemma decode_valid_events (t1 t2 t3 : Z) :
  datetime_min <= t2 -> t2 <= t3 -> t3 < datetime_max ->
  Codec.decode (ET.tostring (pong_event (strftime t1) (strftime t2) (strftime t3)))
  = inr (pong_event (strftime t1) (strftime t2) (strftime t3)) /\
  Codec.decode (ET.tostring (marker_event (strftime t1) (strftime t2) (strftime t3)))
  = inr (marker_event (strftime t1) (strftime t2) (strftime t3)).
Proof.
  intros H1 H2 H3.
  rewrite (proj2 (decode_pong_event t1 t2 t3)),
          (proj2 (decode_marker_event t1 t2 t3)).
  unfold Codec.precedes. rewrite strftime_order by assumption. auto.
Qed.

(** C6.  What [tak_pong] and [gen_cot] return parses back to the very
    event that was encoded, time stamps included, so to an event that is
    equal to it apart from the time stamps.  The [decode] of the spec adds
    its check of [stale] against [start] to the parse: it returns the event
    unless [stale] precedes [start], which does not happen when the clock
    does not go back and stays within the range of [datetime]. *)
Theorem decode_of_encode_is_the_event (w : World) (wake : Z) :
  let r1 := op_time w wake 0 in
  let r2 := op_time w wake 1 in
  let r3 := op_time w wake 2 in
  let pong := pong_event (strftime r1) (strftime r2)
                         (strftime (r3 + 3600 * usec_per_sec)) in
  let marker := marker_event (strftime r1) (strftime r2)
                             (strftime (r3 + 60 * usec_per_sec)) in
  (exists w', returns 3 w wake tak_pong (ET.tostring pong) w') /\
  (exists w', returns 3 w wake gen_cot (ET.tostring marker) w') /\
  (exists d, Codec.fromstring (ET.tostring pong) = Some d /\
             d = pong /\ same_but_times d pong) /\
  (exists d, Codec.fromstring (ET.tostring marker) = Some d /\
             d = marker /\ same_but_times d marker) /\
  Codec.decode (ET.tostring pong)
  = (if Codec.precedes (strftime (r3 + 3600 * usec_per_sec)) (strftime r2)
     then inl Codec.ValidationError else inr pong) /\
  Codec.decode (ET.tostring marker)
  = (if Codec.precedes (strftime (r3 + 60 * usec_per_sec)) (strftime r2)
     then inl Codec.ValidationError else inr marker) /\
  ((forall i, 0 <= lag w i) ->
   datetime_min <= r2 -> r3 + 3600 * usec_per_sec < datetime_max ->
   Codec.decode (ET.tostring pong) = inr pong /\
   Codec.decode (ET.tostring marker) = inr marker).
Proof.
  intros r1 r2 r3 pong marker.
  split; [destruct (tak_pong_returns w wake) as (w' & R & _); now exists w'|].
  split; [destruct (gen_cot_returns w wake) as (w' & R & _); now exists w'|].
  split.
  { exists pong. split; [apply (decode_pong_event r1 r2)|].
    split; [reflexivity|]. split; reflexivity. }
  split.
  { exists marker. split; [apply (decode_marker_event r1 r2)|].
    split; [reflexivity|]. split; reflexivity. }
  split; [apply (decode_pong_event r1 r2)|].
  split; [apply (decode_marker_event r1 r2)|].
  intros L Hmin Hmax.
  pose proof (op_time_le w wake 1 L) as [_ L23]. fold r2 r3 in L23.
  assert (U : usec_per_sec = 1000000) by reflexivity.
  destruct (@decode_valid_events r1 r2 (r3 + 3600 * usec_per_sec))
    as [V1 _]; [exact Hmin | lia | exact Hmax |].
  destruct (@decode_valid_events r1 r2 (r3 + 60 * usec_per_sec))
    as [_ V2]; [exact Hmin | lia | lia |].
  split; [exact V1 | exact V2].
Qed.

(* ================================================================== *)
(** * The schedule of [MySender] *)

Lemma lags_le (w : World) (n m : nat) :
  (forall i, 0 <= lag w i) -> (n <= m)%nat -> lags w n <= lags w m.
Proof.
  intros H L. induction L as [|m L IH]; [lia|].
  cbn [lags]. pose proof (H (m + ticks w)%nat). lia.
Qed.

Lemma lags_shift (w w1 : World) (m j : nat) :
  lag w1 = lag w -> ticks w1 = (m + ticks w)%nat ->
  lags w1 j = lags w (m + j) - lags w m.
Proof.
  intros HL HT. induction j as [|j IH].
  - rewrite Nat.add_0_r. cbn [lags]. lia.
  - rewrite Nat.add_succ_r. cbn [lags]. rewrite IH, HL, HT.
    replace (j + (m + ticks w))%nat with (m + j + ticks w)%nat by lia. lia.
Qed.

Lemma clock_set_items (q : queue_ref) (l : list bytes) (w : World) :
  clock (set_items q l w) = clock w /\
  lag (set_items q l w) = lag w /\
  ticks (set_items q l w) = ticks w.
Proof. destruct q; repeat split. Qed.

(** The run of [MySender], in closed form. *)
Lemma sender_schedule (self : pytak.QueueWorker) (w : World) (n : nat) :
  (forall i, 0 <= lag w i) ->
  exists w' wake',
    exec (n * 7) w (clock w) (MySender.run self)
    = Some (w', wake', MySender.run self) /\
    lag w' = lag w /\ ticks w' = (6 * n + ticks w)%nat /\
    Z.max (clock w') wake'
    = clock w + 5 * usec_per_sec * Z.of_nat n + lags w (6 * n) /\
    trace w'
    = trace w ++ flat_map (sender_ops (pytak.queue self) w) (seq 0 n).
Proof.
  intros H. induction n as [|n (w1 & wake1 & E & HL & HT & HM & HTr)].
  - exists w, (clock w). cbn. rewrite app_nil_r. repeat split; lia.
  - assert (H1 : forall i, 0 <= lag w1 i) by (rewrite HL; exact H).
    assert (T : forall j, op_time w1 wake1 j = sender_time w n (S j)).
    { intros j. rewrite (op_time_lags w1 wake1 j H1), HM.
      rewrite (@lags_shift w w1 (6 * n) (S j) HL HT).
      unfold sender_time. lia. }
    pose proof (sender_step self w1 wake1) as S7. cbv zeta in S7.
    rewrite !T in S7. fold (sender_data w n) in S7.
    match type of S7 with _ = Some (?W, ?K, _) =>
      exists W, K end.
    split; [|split; [|split; [|split]]].
    + replace (S n * 7)%nat with (n * 7 + 7)%nat by lia.
      rewrite exec_add, E. exact S7.
    + rewrite (proj1 (proj2 (clock_set_items _ _ _))). exact HL.
    + rewrite (proj2 (proj2 (clock_set_items _ _ _))). cbn [ticks].
      rewrite HT. lia.
    + rewrite (proj1 (clock_set_items _ _ _)). cbn [clock].
      unfold sender_time.
      replace (6 * S n)%nat with (6 * n + 6)%nat by lia.
      assert (0 < usec_per_sec) by reflexivity. nia.
    + rewrite trace_set_items. cbn [trace]. rewrite HTr, <- app_assoc.
      rewrite seq_S, flat_map_app. cbn [flat_map Nat.add]. rewrite app_nil_r.
      reflexivity.
Qed.

Lemma enqueued_sender_ops (q : queue_ref) (w : World) (ks : list nat) :
  enqueued q (flat_map (sender_ops q w) ks)
  = map (fun k => (sender_time w k 5, sender_data w k)) ks.
Proof.
  unfold enqueued. induction ks as [|k ks IH]; [reflexivity|].
  cbn [flat_map map]. rewrite flat_map_app, IH.
  cbn [sender_ops flat_map snd fst app].
  replace (queue_eqb q q) with true by (destruct q; reflexivity).
  reflexivity.
Qed.

(** Filtering by a deadline a list that increases in time. *)
Lemma filter_from (A : Type) (f : A -> bool) (g : nat -> A) (a n : nat) :
  (forall k, (a <= k)%nat -> f (g k) = false) ->
  filter f (map g (seq a n)) = [].
Proof.
  revert a. induction n as [|n IH]; intros a H; [reflexivity|].
  cbn [seq map filter]. rewrite H by lia. apply IH. intros k L. apply H. lia.
Qed.

Lemma filter_upto (A : Type) (f : A -> bool) (g : nat -> A) (a n : nat) :
  (forall k, (k < a + n)%nat -> f (g k) = true) ->
  filter f (map g (seq a n)) = map g (seq a n).
Proof.
  revert a. induction n as [|n IH]; intros a H; [reflexivity|].
  cbn [seq map filter]. rewrite H by lia. f_equal. apply IH.
  intros k L. apply H. lia.
Qed.

Lemma filter_prefix (A : Type) (f : A -> bool) (g : nat -> A) (m n : nat) :
  (m <= n)%nat ->
  (forall k, (k < m)%nat -> f (g k) = true) ->
  (forall k, (m <= k)%nat -> f (g k) = false) ->
  filter f (map g (seq 0 n)) = map g (seq 0 m).
Proof.
  intros L T F. replace n with (m + (n - m))%nat by lia.
  rewrite seq_app, map_app, filter_app.
  rewrite (@filter_upto A f g 0 m), (@filter_from A f g (0 + m) (n - m)).
  - apply app_nil_r.
  - intros k Hk. apply F. lia.
  - intros k Hk. apply T. lia.
Qed.

Lemma lags_nonneg (w : World) (j : nat) :
  (forall i, 0 <= lag w i) -> 0 <= lags w j.
Proof. intros H. apply (@lags_le w 0 j H). lia. Qed.

(* ================================================================== *)
(** * More on the workers *)

(** X2.  [MyReceiver.run] on a queue whose first item that is not UTF-8
    is [bad]: the items before it are logged in order, [bad] is taken off
    the queue, [data.decode()] raises and ends the worker; the items
    behind [bad] stay on the queue and no further step is taken. *)
Theorem receiver_stops_at_first_invalid_item
        (self : pytak.QueueWorker) (xs : list bytes) (bad : bytes)
        (rest : list bytes) (w : World) (wake : Z) :
  items (pytak.queue self) w = xs ++ bad :: rest ->
  Forall (fun x => utf8_decode x <> None) xs ->
  utf8_decode bad = None ->
  exists w1 t1,
    exec (3 * length xs + 1) w wake (MyReceiver.run self)
    = Some (w1, wake, t1) /\
    logged w1 = logged w ++ map (fun x => received (decoded x)) xs /\
    items (pytak.queue self) w1 = rest /\
    state_of w1 wake t1 = Stopped UnicodeDecodeError /\
    forall m, exec (3 * length xs + 1 + S m) w wake (MyReceiver.run self)
              = None.
Proof.
  intros H F U.
  destruct (@receiver_items self xs (bad :: rest) w wake H F)
    as (w' & E & I & L).
  destruct (@receiver_raises self w' wake bad rest I U) as (t1 & E1 & R1).
  cbv zeta in E1.
  match type of E1 with _ = Some (?W, _, _) => set (w1 := W) in * end.
  exists w1, t1. split; [|split; [|split; [|split]]].
  - rewrite exec_add, E. exact E1.
  - unfold w1. rewrite logged_set_items. exact L.
  - unfold w1. apply items_set_items.
  - unfold state_of. now rewrite R1.
  - intros m. rewrite exec_add, exec_add, E, E1. cbn [exec].
    now rewrite R1.
Qed.

Lemma receiver_stops_at_first_invalid_item_witness :
  let self := pytak.Build_QueueWorker rx_queue [] in
  let w := start_world 0 [b "<a />"; [Byte.xc3]; b "<b />"] in
  exists w1 t1,
    exec (3 * 1 + 1) w 0 (MyReceiver.run self) = Some (w1, 0, t1) /\
    logged w1 = logged w ++ map (fun x => received (decoded x)) [b "<a />"] /\
    items rx_queue w1 = [b "<b />"] /\
    state_of w1 0 t1 = Stopped UnicodeDecodeError /\
    forall m, exec (3 * 1 + 1 + S m) w 0 (MyReceiver.run self) = None.
Proof.
  intros self w.
  apply (@receiver_stops_at_first_invalid_item
           self [b "<a />"] [Byte.xc3] [b "<b />"] w 0).
  - reflexivity.
  - constructor; [discriminate | constructor].
  - reflexivity.
Defined.

Lemma other_items_set_items (q : queue_ref) (l : list bytes) (w : World) :
  items (other_queue q) (set_items q l w) = items (other_queue q) w.
Proof. destruct q; reflexivity. Qed.

(* ================================================================== *)
(** * The schedule of the producers *)

Lemma serializer_schedule (self : pytak.QueueWorker) (w : World) (n : nat) :
  (forall i, 0 <= lag w i) ->
  exists w' wake',
    exec (n * 6) w (clock w) (MySerializer.run self)
    = Some (w', wake', MySerializer.run self) /\
    lag w' = lag w /\ ticks w' = (5 * n + ticks w)%nat /\
    Z.max (clock w') wake'
    = clock w + 20 * usec_per_sec * Z.of_nat n + lags w (5 * n) /\
    trace w'
    = trace w ++ flat_map (serializer_ops (pytak.queue self) w) (seq 0 n).
Proof.
  intros H. induction n as [|n (w1 & wake1 & E & HL & HT & HM & HTr)].
  - exists w, (clock w). cbn. rewrite app_nil_r. repeat split; lia.
  - assert (H1 : forall i, 0 <= lag w1 i) by (rewrite HL; exact H).
    assert (T : forall j, op_time w1 wake1 j = serializer_time w n (S j)).
    { intros j. rewrite (op_time_lags w1 wake1 j H1), HM.
      rewrite (@lags_shift w w1 (5 * n) (S j) HL HT).
      unfold serializer_time. lia. }
    pose proof (serializer_step self w1 wake1) as S6. cbv zeta in S6.
    rewrite !T in S6. fold (serializer_data w n) in S6.
    match type of S6 with _ = Some (?W, ?K, _) => exists W, K end.
    split; [|split; [|split; [|split]]].
    + replace (S n * 6)%nat with (n * 6 + 6)%nat by lia.
      rewrite exec_add, E. exact S6.
    + rewrite (proj1 (proj2 (clock_set_items _ _ _))). exact HL.
    + rewrite (proj2 (proj2 (clock_set_items _ _ _))). cbn [ticks].
      rewrite HT. lia.
    + rewrite (proj1 (clock_set_items _ _ _)). cbn [clock].
      unfold serializer_time.
      replace (5 * S n)%nat with (5 * n + 5)%nat by lia.
      assert (0 < usec_per_sec) by reflexivity. nia.
    + rewrite trace_set_items. cbn [trace]. rewrite HTr, <- app_assoc.
      rewrite seq_S, flat_map_app. cbn [flat_map Nat.add]. rewrite app_nil_r.
      reflexivity.
Qed.

Lemma enqueued_serializer_ops (q : queue_ref) (w : World) (ks : list nat) :
  enqueued q (flat_map (serializer_ops q w) ks)
  = map (fun k => (serializer_time w k 4, serializer_data w k)) ks.
Proof.
  unfold enqueued. induction ks as [|k ks IH]; [reflexivity|].
  cbn [flat_map map]. rewrite flat_map_app, IH.
  cbn [serializer_ops flat_map snd fst app].
  replace (queue_eqb q q) with true by (destruct q; reflexivity).
  reflexivity.
Qed.

Lemma nth_error_map_seq (A : Type) (f : nat -> A) (a n k : nat) (x : A) :
  nth_error (map f (seq a n)) k = Some x -> x = f (a + k)%nat.
Proof.
  revert a k. induction n as [|n IH]; intros a [|k]; cbn; try discriminate.
  - rewrite Nat.add_0_r. congruence.
  - intros H. apply IH in H. rewrite H. f_equal. lia.
Qed.

(** X5.  With a clock that does not go back, two consecutive events of
    [MySerializer] are put on the queue at least 20 seconds apart and two
    of [MySender] at least 5 seconds apart; the first one is put no
    earlier than the start. *)
Theorem producers_respect_interval
        (self : pytak.QueueWorker) (n : nat) (w : World) :
  (forall i, 0 <= lag w i) ->
  let q := pytak.queue self in
  (exists w' wake' ops,
      exec (n * 6) w (clock w) (MySerializer.run self)
      = Some (w', wake', MySerializer.run self) /\
      trace w' = trace w ++ ops /\
      let times := map fst (enqueued q ops) in
      length times = n /\
      (forall a, nth_error times 0 = Some a -> clock w <= a) /\
      (forall k a c, nth_error times k = Some a ->
                     nth_error times (S k) = Some c ->
                     a + 20 * usec_per_sec <= c)) /\
  (exists w' wake' ops,
      exec (n * 7) w (clock w) (MySender.run self)
      = Some (w', wake', MySender.run self) /\
      trace w' = trace w ++ ops /\
      let times := map fst (enqueued q ops) in
      length times = n /\
      (forall a, nth_error times 0 = Some a -> clock w <= a) /\
      (forall k a c, nth_error times k = Some a ->
                     nth_error times (S k) = Some c ->
                     a + 5 * usec_per_sec <= c)).
Proof.
  intros L q.
  pose proof (fun j => @lags_nonneg w j L) as L0.
  assert (U : usec_per_sec = 1000000) by reflexivity.
  split.
  - destruct (@serializer_schedule self w n L)
      as (w' & wake' & E & _ & _ & _ & T).
    exists w', wake', (flat_map (serializer_ops q w) (seq 0 n)).
    split; [exact E|]. split; [exact T|]. cbv zeta.
    rewrite enqueued_serializer_ops, map_map. cbn [fst].
    split; [now rewrite length_map, length_seq|]. split.
    + intros a H. apply nth_error_map_seq in H. subst a.
      unfold serializer_time. pose proof (L0 (5 * (0 + 0) + 4)%nat). lia.
    + intros k a c Ha Hc.
      apply nth_error_map_seq in Ha. apply nth_error_map_seq in Hc.
      subst a c. unfold serializer_time. cbn [Nat.add].
      pose proof (@lags_le w (5 * k + 4) (5 * S k + 4) L ltac:(lia)). lia.
  - destruct (@sender_schedule self w n L)
      as (w' & wake' & E & _ & _ & _ & T).
    exists w', wake', (flat_map (sender_ops q w) (seq 0 n)).
    split; [exact E|]. split; [exact T|]. cbv zeta.
    rewrite enqueued_sender_ops, map_map. cbn [fst].
    split; [now rewrite length_map, length_seq|]. split.
    + intros a H. apply nth_error_map_seq in H. subst a.
      unfold sender_time. pose proof (L0 (6 * (0 + 0) + 5)%nat). lia.
    + intros k a c Ha Hc.
      apply nth_error_map_seq in Ha. apply nth_error_map_seq in Hc.
      subst a c. unfold sender_time. cbn [Nat.add].
      pose proof (@lags_le w (6 * k + 5) (6 * S k + 5) L ltac:(lia)). lia.
Qed.

Lemma producers_respect_interval_witness :
  let self := pytak.Build_QueueWorker tx_queue [] in
  let w := start_world 250 [] in
  let q := pytak.queue self in
  (exists w' wake' ops,
      exec (2 * 6) w (clock w) (MySerializer.run self)
      = Some (w', wake', MySerializer.run self) /\
      trace w' = trace w ++ ops /\
      let times := map fst (enqueued q ops) in
      length times = 2%nat /\
      (forall a, nth_error times 0 = Some a -> clock w <= a) /\
      (forall k a c, nth_error times k = Some a ->
                     nth_error times (S k) = Some c ->
                     a + 20 * usec_per_sec <= c)) /\
  (exists w' wake' ops,
      exec (2 * 7) w (clock w) (MySender.run self)
      = Some (w', wake', MySender.run self) /\
      trace w' = trace w ++ ops /\
      let times := map fst (enqueued q ops) in
      length times = 2%nat /\
      (forall a, nth_error times 0 = Some a -> clock w <= a) /\
      (forall k a c, nth_error times k = Some a ->
                     nth_error times (S k) = Some c ->
                     a + 5 * usec_per_sec <= c)).
Proof.
  intros self w.
  apply (@producers_respect_interval self 2 w).
  intros i. cbn. lia.
Defined.




(* ================================================================== *)
(** * The receiver on what the generators write *)

(** X7.  [MyReceiver] handles whatever [ET.tostring] writes, so every
    event of [tak_pong] and [gen_cot]: given a queue of such encodings it
    logs each of them, with the serialised text in which the characters
    outside ASCII are character references, empties the queue and waits,
    still running. *)
Theorem receiver_logs_generated_events
        (self : pytak.QueueWorker) (es : list Element)
        (w : World) (wake : Z) :
  items (pytak.queue self) w = map ET.tostring es ->
  exists w',
    exec (3 * length es) w wake (MyReceiver.run self)
    = Some (w', wake, MyReceiver.run self) /\
    logged w'
    = logged w ++ map (fun e => received (charrefs (ET._serialize_xml e))) es /\
    items (pytak.queue self) w' = [] /\
    state_of w' wake (MyReceiver.run self) = Running.
Proof.
  intros H.
  destruct (@receiver_items self (map ET.tostring es) [] w wake)
    as (w' & E & I & L).
  - now rewrite app_nil_r.
  - apply Forall_map, Forall_forall. intros e _.
    rewrite text_of_tostring. discriminate.
  - exists w'. rewrite length_map in E. split; [exact E|].
    split; [|split; [exact I|]].
    + rewrite L, map_map. f_equal. apply map_ext. intros e.
      unfold decoded. now rewrite text_of_tostring.
    + unfold state_of. now rewrite receiver_blocked.
Qed.

Lemma receiver_logs_generated_events_witness :
  let self := pytak.Build_QueueWorker rx_queue [] in
  let e := Elem (u "event") [(u "uid", [233%N; 60%N])] [] in
  let w := start_world 0 [ET.tostring e] in
  exists w',
    exec (3 * 1) w 0 (MyReceiver.run self)
    = Some (w', 0, MyReceiver.run self) /\
    logged w'
    = logged w ++ map (fun e => received (charrefs (ET._serialize_xml e))) [e] /\
    items rx_queue w' = [] /\
    state_of w' 0 (MyReceiver.run self) = Running.
Proof.
  intros self e w.
  apply (@receiver_logs_generated_events self [e] w 0). reflexivity.
Defined.

(** X8.  For each item it handles [MyReceiver.run] performs one get and
    one log record of that item, in the order of the queue, and nothing
    else: no put, no sleep, no clock read; the other queue is as it
    was. *)
Theorem receiver_takes_and_logs_in_order
        (self : pytak.QueueWorker) (xs rest : list bytes)
        (w : World) (wake : Z) :
  let q := pytak.queue self in
  items q w = xs ++ rest ->
  Forall (fun x => utf8_decode x <> None) xs ->
  exists w' ops,
    exec (3 * length xs) w wake (MyReceiver.run self)
    = Some (w', wake, MyReceiver.run self) /\
    trace w' = trace w ++ ops /\
    map snd ops
    = flat_map (fun x => [Get q x; Log (received (decoded x))]) xs /\
    items q w' = rest /\
    items (other_queue q) w' = items (other_queue q) w.
Proof.
  intros q. revert w. induction xs as [|x xs IH]; intros w H F.
  - exists w, []. cbn. rewrite app_nil_r. auto.
  - inversion F as [|? ? Hx Hxs]; subst.
    destruct (utf8_decode x) as [text|] eqn:U; [|congruence].
    pose proof (receiver_step self w wake H U) as E3. cbv zeta in E3.
    fold q in E3.
    match type of E3 with _ = Some (?W, _, _) => set (w1 := W) in * end.
    destruct (IH w1) as (w' & ops & E & T & M & I & O); auto.
    { unfold w1. apply items_set_items. }
    eexists w', (_ ++ ops). split; [|split; [|split; [|split]]].
    + replace (3 * length (x :: xs))%nat with (3 + 3 * length xs)%nat
        by (cbn [length]; lia).
      rewrite exec_add, E3. exact E.
    + rewrite T. unfold w1. rewrite trace_set_items. cbn [trace].
      rewrite <- app_assoc. reflexivity.
    + rewrite map_app, M. cbn [map snd flat_map app].
      unfold decoded at 2. rewrite U. reflexivity.
    + exact I.
    + rewrite O. unfold w1. rewrite other_items_set_items.
      destruct q; reflexivity.
Qed.

Lemma receiver_takes_and_logs_in_order_witness :
  let self := pytak.Build_QueueWorker rx_queue [] in
  let w := start_world 0 [b "<a />"; b "<b />"; [Byte.xff]] in
  let q := pytak.queue self in
  exists w' ops,
    exec (3 * 2) w 0 (MyReceiver.run self)
    = Some (w', 0, MyReceiver.run self) /\
    trace w' = trace w ++ ops /\
    map snd ops
    = flat_map (fun x => [Get q x; Log (received (decoded x))])
               [b "<a />"; b "<b />"] /\
    items q w' = [[Byte.xff]] /\
    items (other_queue q) w' = items (other_queue q) w.
Proof.
  intros self w.
  apply (@receiver_takes_and_logs_in_order
           self [b "<a />"; b "<b />"] [[Byte.xff]] w 0).
  - reflexivity.
  - repeat constructor; discriminate.
Defined.

(* ================================================================== *)
(** * Time stamps as text *)

Lemma strftime_lt (t t' : Z) :
  datetime_min <= t -> t < t' -> t' < datetime_max ->
  str_ltb (strftime t) (strftime t') = true.
Proof.
  unfold datetime_min, datetime_max, strftime, usec_per_day, usec_per_sec.
  intros Hmin Hlt Hmax.
  set (day := t / (86400 * 1000000)). set (day' := t' / (86400 * 1000000)).
  set (us := t mod (86400 * 1000000)). set (us' := t' mod (86400 * 1000000)).
  assert (Hday : -719162 <= day <= 2932896) by (unfold day; euclid).
  assert (Hday' : -719162 <= day' <= 2932896) by (unfold day'; euclid).
  assert (Hus : 0 <= us < 86400 * 1000000) by (unfold us; euclid).
  assert (Hus' : 0 <= us' < 86400 * 1000000) by (unfold us'; euclid).
  assert (Hd : day < day' \/ (day = day' /\ us < us'))
    by (unfold day, day', us, us'; euclid).
  clearbody day day' us us'. clear t t' Hmin Hlt Hmax.
  pose proof (civil_year_range Hday) as Y.
  pose proof (civil_year_range Hday') as Y'.
  pose proof (civil_range day) as R. pose proof (civil_range day') as R'.
  assert (C : day < day' -> lex3 (civil_from_days day) (civil_from_days day'))
    by apply civil_mono.
  assert (Q : day = day' -> civil_from_days day = civil_from_days day')
    by (now intros ->).
  destruct (civil_from_days day) as [[y m] d].
  destruct (civil_from_days day') as [[y' m'] d'].
  unfold lex3 in C.
  rewrite !field_order, last_field_order; try (cbn; euclid).
  destruct Hd as [Hd|[Hd Hu]].
  - specialize (C Hd). clear Q.
    destruct (Z.ltb_spec y y'); [reflexivity|].
    destruct (Z.eqb_spec y y'); [|lia]. cbn [orb andb].
    destruct (Z.ltb_spec m m'); [reflexivity|].
    destruct (Z.eqb_spec m m'); [|lia]. cbn [orb andb].
    destruct (Z.ltb_spec d d'); [reflexivity|]. lia.
  - specialize (Q Hd). inversion Q; subst. clear C Q.
    rewrite !Z.ltb_irrefl, !Z.eqb_refl. cbn [orb andb].
    set (s := us / 1000000). set (s' := us' / 1000000).
    set (f := us mod 1000000). set (f' := us' mod 1000000).
    assert (Hs : s < s' \/ (s = s' /\ f < f'))
      by (unfold s, s', f, f'; euclid).
    clearbody s s' f f'. clear us us' Hus Hus' Hu.
    set (h := s / 3600). set (h' := s' / 3600).
    set (r := s mod 3600). set (r' := s' mod 3600).
    assert (E1 : s / 60 mod 60 = r / 60) by (unfold r; euclid).
    assert (E2 : s mod 60 = r mod 60) by (unfold r; euclid).
    assert (E1' : s' / 60 mod 60 = r' / 60) by (unfold r'; euclid).
    assert (E2' : s' mod 60 = r' mod 60) by (unfold r'; euclid).
    rewrite E1, E2, E1', E2'.
    assert (Hh : h < h' \/ (h = h' /\ (r < r' \/ (r = r' /\ f < f'))))
      by (unfold h, h', r, r'; euclid).
    clearbody h h' r r'. clear s s' Hs E1 E2 E1' E2'.
    destruct (Z.ltb_spec h h'); [reflexivity|].
    destruct (Z.eqb_spec h h'); [|lia]. cbn [orb andb].
    assert (Hr : r / 60 < r' / 60 \/
                 (r / 60 = r' / 60 /\
                  (r mod 60 < r' mod 60 \/ (r mod 60 = r' mod 60 /\ f < f'))))
      by euclid.
    destruct (Z.ltb_spec (r / 60) (r' / 60)); [reflexivity|].
    destruct (Z.eqb_spec (r / 60) (r' / 60)); [|lia]. cbn [orb andb].
    destruct (Z.ltb_spec (r mod 60) (r' mod 60)); [reflexivity|].
    destruct (Z.eqb_spec (r mod 60) (r' mod 60)); [|lia]. cbn [orb andb].
    apply Z.ltb_lt. lia.
Qed.

Lemma str_ltb_irrefl (s : str) : str_ltb s s = false.
Proof.
  induction s as [|c s IH]; [reflexivity|].
  cbn [str_ltb]. now rewrite N.ltb_irrefl, N.eqb_refl, IH.
Qed.

(** X9.  From 1970 to the end of the year 9999 the time stamps of
    [pytak.cot_time] compare as text the way their instants compare, and
    two different instants never have the same stamp. *)
Theorem stamps_compare_as_instants (t t' : Z) :
  0 <= t < datetime_max -> 0 <= t' < datetime_max ->
  str_ltb (strftime t) (strftime t') = (t <? t') /\
  (strftime t = strftime t' -> t = t').
Proof.
  intros [H0 H1] [H0' H1'].
  assert (M : datetime_min <= 0) by (vm_compute; discriminate).
  assert (K : str_ltb (strftime t) (strftime t') = (t <? t')).
  { destruct (Z.ltb_spec t t').
    - apply strftime_lt; lia.
    - apply strftime_order; lia. }
  split; [exact K|]. intros E.
  destruct (Z.lt_trichotomy t t') as [L|[L|L]]; [|exact L|]; exfalso.
  - rewrite E, str_ltb_irrefl in K. symmetry in K. apply Z.ltb_ge in K. lia.
  - pose proof (@strftime_lt t' t ltac:(lia) L H1) as K'.
    rewrite E, str_ltb_irrefl in K'. discriminate.
Qed.

Lemma stamps_compare_as_instants_witness :
  str_ltb (strftime 1700000000999999) (strftime 1700000001000000)
  = (1700000000999999 <? 1700000001000000) /\
  (strftime 1700000000999999 = strftime 1700000001000000 ->
   1700000000999999 = 1700000001000000).
Proof.
  apply (@stamps_compare_as_instants 1700000000999999 1700000001000000).
  - split; [vm_compute; discriminate | vm_compute; reflexivity].
  - split; [vm_compute; discriminate | vm_compute; reflexivity].
Defined.



(* ================================================================== *)
(** * The bytes the generators return *)

Lemma value_text_plain (v : str) :
  forallb plain_char v = true -> value_text v = v.
Proof.
  induction v as [|c v IH]; [reflexivity|].
  cbn [forallb]. rewrite andb_true_iff. intros [Hc Hv].
  rewrite value_text_cons, IH by exact Hv. rewrite value_char.
  unfold plain_char in Hc. apply andb_true_iff in Hc. destruct Hc as [A B0].
  apply negb_true_iff in B0. rewrite !orb_false_iff in B0.
  destruct B0 as [[[[[[B1 B2] B3] B4] B5] B6] B7].
  now rewrite B1, B2, B3, B4, B5, B6, B7, A.
Qed.

Lemma zfill_plain (w : nat) (n : Z) : forallb plain_char (zfill w n) = true.
Proof.
  apply forallb_forall. intros c Hc.
  pose proof (zfill_digits w n) as F. rewrite Forall_forall in F.
  apply F in Hc. unfold plain_char.
  apply andb_true_iff. split; [apply N.ltb_lt; lia|].
  apply negb_true_iff. rewrite !orb_false_iff.
  repeat split; apply N.eqb_neq; lia.
Qed.

Lemma strftime_plain (t : Z) : forallb plain_char (strftime t) = true.
Proof.
  unfold strftime. destruct (civil_from_days _) as [[y m] d].
  rewrite !forallb_app, !zfill_plain. reflexivity.
Qed.

(** What [data.decode()] gives on the events of the two generators. *)
Lemma pong_event_text (t1 t2 t3 : Z) :
  utf8_decode (ET.tostring
                 (pong_event (strftime t1) (strftime t2) (strftime t3)))
  = Some (pong_text (strftime t1) (strftime t2) (strftime t3)).
Proof.
  rewrite text_of_tostring. f_equal.
  pose proof (pong_event_well_formed t1 t2 t3) as W.
  unfold pong_event in *. fold (element_text (Elem (u "event")
    [ (u "version", u "2.0"); (u "type", u "t-x-d-d");
      (u "uid", u "takPong"); (u "how", u "m-g");
      (u "time", strftime t1); (u "start", strftime t2);
      (u "stale", strftime t3) ] [])).
  rewrite (element_text_eq _ _ _ W).
  cbn [flat_map]. unfold attr_text. cbn [fst snd].
  rewrite !(value_text_plain (strftime _)) by apply strftime_plain.
  rewrite !value_text_plain by reflexivity.
  unfold pong_text.
  generalize (strftime t1) (strftime t2) (strftime t3). intros a b0 c.
  rewrite <- !app_assoc. reflexivity.
Qed.

Lemma marker_event_text (t1 t2 t3 : Z) :
  utf8_decode (ET.tostring
                 (marker_event (strftime t1) (strftime t2) (strftime t3)))
  = Some (marker_text (strftime t1) (strftime t2) (strftime t3)).
Proof.
  rewrite text_of_tostring. f_equal.
  pose proof (marker_event_well_formed t1 t2 t3) as W.
  unfold marker_event in *.
  match type of W with well_formed ?E = true => fold (element_text E) end.
  rewrite (element_text_eq _ _ _ W).
  assert (P : element_text
                (Elem (u "point")
                      [ (u "lat", u "40.781789"); (u "lon", u "-73.968698");
                        (u "hae", u "0"); (u "ce", u "10"); (u "le", u "10") ]
                      [])
              = u "<point lat=" ++ [QUOT] ++ u "40.781789" ++ [QUOT]
                ++ u " lon=" ++ [QUOT] ++ u "-73.968698" ++ [QUOT]
                ++ u " hae=" ++ [QUOT] ++ u "0" ++ [QUOT]
                ++ u " ce=" ++ [QUOT] ++ u "10" ++ [QUOT]
                ++ u " le=" ++ [QUOT] ++ u "10" ++ [QUOT]
                ++ u " />") by reflexivity.
  cbn [flat_map]. rewrite P. unfold attr_text. cbn [fst snd].
  rewrite !(value_text_plain (strftime _)) by apply strftime_plain.
  rewrite !value_text_plain by reflexivity.
  unfold marker_text.
  generalize (strftime t1) (strftime t2) (strftime t3). intros a b0 c.
  rewrite <- !app_assoc. reflexivity.
Qed.

(** What a call of [tak_pong] returns: its bytes, their text and their
    parse. *)
Lemma tak_pong_bytes (w : World) (wake : Z) :
  let time := strftime (op_time w wake 0) in
  let start := strftime (op_time w wake 1) in
  let stale := strftime (op_time w wake 2 + 3600 * usec_per_sec) in
  exists data w',
    returns 3 w wake tak_pong data w' /\
    utf8_decode data = Some (pong_text time start stale) /\
    Codec.fromstring data = Some (pong_event time start stale).
Proof.
  intros time start stale.
  destruct (tak_pong_returns w wake) as (w' & R & _).
  do 2 eexists. split; [exact R|]. split.
  - apply pong_event_text.
  - apply (decode_pong_event (op_time w wake 0) (op_time w wake 1)).
Qed.

Lemma gen_cot_bytes (w : World) (wake : Z) :
  let time := strftime (op_time w wake 0) in
  let start := strftime (op_time w wake 1) in
  let stale := strftime (op_time w wake 2 + 60 * usec_per_sec) in
  exists data w',
    returns 3 w wake gen_cot data w' /\
    utf8_decode data = Some (marker_text time start stale) /\
    Codec.fromstring data = Some (marker_event time start stale).
Proof.
  intros time start stale.
  destruct (gen_cot_returns w wake) as (w' & R & _).
  do 2 eexists. split; [exact R|]. split.
  - apply marker_event_text.
  - apply (decode_marker_event (op_time w wake 0) (op_time w wake 1)).
Qed.

(** C2, evaluated where it fails.  On a machine whose clock advances by
    one microsecond between two operations the bytes [tak_pong] and
    [gen_cot] return are the text, and parse to the event, whose [start]
    is the stamp of the second clock read and whose [stale] is the stamp
    of the third one plus the offset: [stale] is no whole number of
    seconds after [start], so it is not [start] plus 3600, respectively
    60, seconds. *)
Lemma stale_is_not_start_plus_offset :
  let w := start_world 1 [] in
  let time := u "1970-01-01T00:00:00.000001Z" in
  let start := u "1970-01-01T00:00:00.000002Z" in
  let stale_pong := u "1970-01-01T01:00:00.000003Z" in
  let stale_marker := u "1970-01-01T00:01:00.000003Z" in
  (exists data e w',
      returns 3 w 0 tak_pong data w' /\
      utf8_decode data = Some (pong_text time start stale_pong) /\
      Codec.fromstring data = Some e /\
      ET.get e (u "start") = Some start /\
      ET.get e (u "stale") = Some stale_pong) /\
  (exists data e w',
      returns 3 w 0 gen_cot data w' /\
      utf8_decode data = Some (marker_text time start stale_marker) /\
      Codec.fromstring data = Some e /\
      ET.get e (u "start") = Some start /\
      ET.get e (u "stale") = Some stale_marker) /\
  start = strftime 2 /\
  stale_pong = strftime (3 + 3600 * usec_per_sec) /\
  stale_marker = strftime (3 + 60 * usec_per_sec) /\
  (forall secs, ~ plus_seconds start secs stale_pong) /\
  (forall secs, ~ plus_seconds start secs stale_marker).
Proof.
  intros w time start stale_pong stale_marker.
  assert (E1 : strftime 1 = time) by (vm_compute; reflexivity).
  assert (E2 : strftime 2 = start) by (vm_compute; reflexivity).
  assert (E3 : strftime (3 + 3600 * usec_per_sec) = stale_pong)
    by (vm_compute; reflexivity).
  assert (E4 : strftime (3 + 60 * usec_per_sec) = stale_marker)
    by (vm_compute; reflexivity).
  split; [|split; [|split; [|split; [|split; [|split]]]]]; auto.
  - destruct (tak_pong_bytes w 0) as (data & w' & R & T & F).
    change (op_time w 0 0) with 1 in *. change (op_time w 0 1) with 2 in *.
    change (op_time w 0 2) with 3 in *. rewrite E1, E2, E3 in T, F.
    do 3 eexists. split; [exact R|]. split; [exact T|]. split; [exact F|].
    split; reflexivity.
  - destruct (gen_cot_bytes w 0) as (data & w' & R & T & F).
    change (op_time w 0 0) with 1 in *. change (op_time w 0 1) with 2 in *.
    change (op_time w 0 2) with 3 in *. rewrite E1, E2, E4 in T, F.
    do 3 eexists. split; [exact R|]. split; [exact T|]. split; [exact F|].
    split; reflexivity.
  - intros secs H. apply plus_seconds_last_digit in H.
    vm_compute in H. discriminate H.
  - intros secs H. apply plus_seconds_last_digit in H.
    vm_compute in H. discriminate H.
Qed.

(** C8.  Every byte string [tak_pong] returns is, decoded, the text of an
    empty element [event] with the attributes [version], [type], [uid],
    [how], [time], [start], [stale], and parses to an element [event]
    with exactly these seven attributes, of type [t-x-d-d], and without
    children: there is no [point] in it. *)
Theorem tak_pong_has_seven_attributes_and_no_child (w : World) (wake : Z) :
  let time := strftime (op_time w wake 0) in
  let start := strftime (op_time w wake 1) in
  let stale := strftime (op_time w wake 2 + 3600 * usec_per_sec) in
  exists data e w',
    returns 3 w wake tak_pong data w' /\
    utf8_decode data = Some (pong_text time start stale) /\
    Codec.fromstring data = Some e /\
    tag e = u "event" /\
    attrib e
    = [ (u "version", u "2.0"); (u "type", u "t-x-d-d");
        (u "uid", u "takPong"); (u "how", u "m-g");
        (u "time", time); (u "start", start); (u "stale", stale) ] /\
    children e = [].
Proof.
  intros time start stale.
  destruct (tak_pong_bytes w wake) as (data & w' & R & T & F).
  do 3 eexists. split; [exact R|]. split; [exact T|]. split; [exact F|].
  repeat split.
Qed.

(** C9.  The [uid] is a constant of each generator: whatever the world,
    the bytes [tak_pong] returns parse to an event with the uid [takPong]
    and the bytes [gen_cot] returns to one with the uid
    [name_your_marker], so two events of one generator have the same
    uid.  The texts are [pong_text] and [marker_text], in which only the
    three time stamps vary. *)
Theorem uid_is_constant_per_generator (w1 w2 : World) (wake1 wake2 : Z) :
  (exists d1 d2 e1 e2 w1' w2',
      returns 3 w1 wake1 tak_pong d1 w1' /\
      returns 3 w2 wake2 tak_pong d2 w2' /\
      Codec.fromstring d1 = Some e1 /\
      Codec.fromstring d2 = Some e2 /\
      ET.get e1 (u "uid") = Some (u "takPong") /\
      ET.get e2 (u "uid") = Some (u "takPong") /\
      (exists a1 b1 c1, utf8_decode d1 = Some (pong_text a1 b1 c1)) /\
      (exists a2 b2 c2, utf8_decode d2 = Some (pong_text a2 b2 c2))) /\
  (exists d1 d2 e1 e2 w1' w2',
      returns 3 w1 wake1 gen_cot d1 w1' /\
      returns 3 w2 wake2 gen_cot d2 w2' /\
      Codec.fromstring d1 = Some e1 /\
      Codec.fromstring d2 = Some e2 /\
      ET.get e1 (u "uid") = Some (u "name_your_marker") /\
      ET.get e2 (u "uid") = Some (u "name_your_marker") /\
      (exists a1 b1 c1, utf8_decode d1 = Some (marker_text a1 b1 c1)) /\
      (exists a2 b2 c2, utf8_decode d2 = Some (marker_text a2 b2 c2))).
Proof.
  split.
  - destruct (tak_pong_bytes w1 wake1) as (d1 & w1' & R1 & T1 & F1).
    destruct (tak_pong_bytes w2 wake2) as (d2 & w2' & R2 & T2 & F2).
    do 6 eexists. split; [exact R1|]. split; [exact R2|].
    split; [exact F1|]. split; [exact F2|].
    split; [reflexivity|]. split; [reflexivity|].
    split; do 3 eexists; eassumption.
  - destruct (gen_cot_bytes w1 wake1) as (d1 & w1' & R1 & T1 & F1).
    destruct (gen_cot_bytes w2 wake2) as (d2 & w2' & R2 & T2 & F2).
    do 6 eexists. split; [exact R1|]. split; [exact R2|].
    split; [exact F1|]. split; [exact F2|].
    split; [reflexivity|]. split; [reflexivity|].
    split; do 3 eexists; eassumption.
Qed.

(** X12.  Every byte string [gen_cot] returns is, decoded, the text of
    an element [event] with the attributes [version], [type], [uid],
    [how], [time], [start], [stale] around one empty element [point], and
    parses to an event with exactly these seven attributes and one child,
    a [point] with the attributes [lat], [lon], [hae], [ce], [le] and no
    child of its own. *)
Theorem gen_cot_has_seven_attributes_and_one_point
        (w : World) (wake : Z) :
  let time := strftime (op_time w wake 0) in
  let start := strftime (op_time w wake 1) in
  let stale := strftime (op_time w wake 2 + 60 * usec_per_sec) in
  exists data e p w',
    returns 3 w wake gen_cot data w' /\
    utf8_decode data = Some (marker_text time start stale) /\
    Codec.fromstring data = Some e /\
    tag e = u "event" /\
    attrib e
    = [ (u "version", u "2.0"); (u "type", u "a-h-A-M-A");
        (u "uid", u "name_your_marker"); (u "how", u "m-g");
        (u "time", time); (u "start", start); (u "stale", stale) ] /\
    children e = [p] /\
    tag p = u "point" /\
    attrib p = [ (u "lat", u "40.781789"); (u "lon", u "-73.968698");
                 (u "hae", u "0"); (u "ce", u "10"); (u "le", u "10") ] /\
    children p = [].
Proof.
  intros time start stale.
  destruct (gen_cot_bytes w wake) as (data & w' & R & T & F).
  do 4 eexists. split; [exact R|]. split; [exact T|]. split; [exact F|].
  repeat split.
Qed.

(** C10.  [handle_data] of [MySerializer] and of [MySender] performs one
    operation, the put of exactly its argument on the queue of the
    worker, after which the queue ends with [data]; and in an iteration
    of [run] the one item put is the byte string the generator returned,
    and the queue ends with it. *)
Theorem handle_data_enqueues_data_unchanged
        (self : pytak.QueueWorker) (data : bytes) (w : World) (wake : Z) :
  let q := pytak.queue self in
  (exists w' t' front,
      exec 1 w wake (MySerializer.handle_data self data)
      = Some (w', wake, t') /\
      observe t' = RetF tt /\
      trace w' = trace w ++ [(op_time w wake 0, Put q data)] /\
      items q w' = front ++ [data]) /\
  (exists w' t' front,
      exec 1 w wake (MySender.handle_data self data)
      = Some (w', wake, t') /\
      observe t' = RetF tt /\
      trace w' = trace w ++ [(op_time w wake 0, Put q data)] /\
      items q w' = front ++ [data]) /\
  (exists made t3 w3 w4 wake4 t4 ops front,
      exec 3 w wake tak_pong = Some (w3, wake, t3) /\
      observe t3 = RetF made /\
      exec 4 w wake (MySerializer.run self) = Some (w4, wake4, t4) /\
      trace w4 = trace w ++ ops /\
      enqueued q ops = [(op_time w wake 3, made)] /\
      items q w4 = front ++ [made]) /\
  (exists made t3 w3 w5 wake5 t5 ops front,
      exec 3 w wake gen_cot = Some (w3, wake, t3) /\
      observe t3 = RetF made /\
      exec 5 w wake (MySender.run self) = Some (w5, wake5, t5) /\
      trace w5 = trace w ++ ops /\
      enqueued q ops = [(op_time w wake 4, made)] /\
      items q w5 = front ++ [made]).
Proof.
  intros q.
  assert (Q : queue_eqb q q = true) by (destruct q; reflexivity).
  split; [|split; [|split]].
  - destruct (put_queue_run self data w wake) as (t' & E & R).
    do 3 eexists. split; [exact E|]. split; [exact R|].
    split; [apply trace_set_items | apply items_set_items].
  - destruct (put_queue_run self data w wake) as (t' & E & R).
    do 3 eexists. split; [exact E|]. split; [exact R|].
    split; [apply trace_set_items | apply items_set_items].
  - destruct (tak_pong_run w wake) as (t3 & E3 & R3).
    destruct (serializer_put self w wake) as (t4 & E4).
    do 8 eexists. split; [exact E3|]. split; [exact R3|].
    split; [exact E4|].
    split; [rewrite trace_set_items; cbn [trace]; reflexivity|].
    split; [|apply items_set_items].
    unfold enqueued. cbn [flat_map snd fst app]. fold q. now rewrite Q.
  - destruct (gen_cot_run w wake) as (t3 & E3 & R3).
    destruct (sender_put self w wake) as (t5 & E5).
    do 8 eexists. split; [exact E3|]. split; [exact R3|].
    split; [exact E5|].
    split; [rewrite trace_set_items; cbn [trace]; reflexivity|].
    split; [|apply items_set_items].
    unfold enqueued. cbn [flat_map snd fst app]. fold q. now rewrite Q.
Qed.

(* ================================================================== *)
(** * A waiting task and the rest of the loop *)

(** A task that cannot step takes no part in the steps of the loop: with
    it or without it, the loop has the same steps. *)
Lemma loop_step_beside_blocked (r : Worker) (w : World)
      (others : list Worker) :
  wstep w r = None ->
  (forall w' others',
      loop_step (w, others) (w', others') <->
      loop_step (w, r :: others) (w', r :: others')) /\
  (forall p, loop_step (w, r :: others) p ->
             exists w' others', p = (w', r :: others')).
Proof.
  intros B. split.
  - intros w' others'. split.
    + intros H. inversion H as [w0 ks i k w1 k' Hi Hw Hmin]; subst.
      apply (@loop_run w (r :: others) (S i) k w' k'); auto.
      intros [|j] kj Hj Hs.
      * inversion Hj; subst. congruence.
      * eapply Hmin; eauto.
    + intros H.
      remember (w, r :: others) as p1 eqn:E1.
      remember (w', r :: others') as p2 eqn:E2.
      destruct H as [w0 ks i k w1 k' Hi Hw Hmin].
      inversion E1; subst w0 ks. clear E1.
      destruct i as [|i].
      * inversion Hi; subst. congruence.
      * cbn [replace_nth] in E2. inversion E2; subst. clear E2.
        apply (@loop_run w others i k w' k'); auto.
        intros j kj Hj Hs. apply (Hmin (S j) kj); auto.
  - intros p H.
    remember (w, r :: others) as p1 eqn:E1.
    destruct H as [w0 ks i k w1 k' Hi Hw Hmin].
    inversion E1; subst w0 ks. clear E1.
    destruct i as [|i].
    + inversion Hi; subst. congruence.
    + cbn [replace_nth]. eauto.
Qed.

(** C5, as the code has it.  An iteration of [MyReceiver.run] first
    awaits an item of its queue: on an empty queue the worker is suspended
    (it takes no step and stays running), and the loop has, with any other
    tasks, exactly the steps it has without the receiver, none of them the
    receiver's.  When an item is there the worker takes it and decodes it:
    an item that is UTF-8 is logged and the loop is back at the wait, an
    item that is not raises [UnicodeDecodeError], which ends the worker
    with nothing logged. *)
Theorem receiver_waits_then_logs
        (self : pytak.QueueWorker) (w : World) (wake : Z) :
  let q := pytak.queue self in
  let receiver := spawn_at (MyReceiver.run self) wake in
  (items q w = [] ->
   istep w wake (MyReceiver.run self) = Blocked /\
   state_of w wake (MyReceiver.run self) = Running /\
   (forall others w' others',
       loop_step (w, others) (w', others') <->
       loop_step (w, receiver :: others) (w', receiver :: others')) /\
   (forall others p,
       loop_step (w, receiver :: others) p ->
       exists w' others', p = (w', receiver :: others'))) /\
  (forall data rest, items q w = data :: rest ->
     let w1 := set_items q rest
                 (mkWorld (op_time w wake 0) (lag w) (1 + ticks w)
                          (tx w) (rx w) (logged w)
                          (trace w ++ [(op_time w wake 0, Get q data)])) in
     exists t1,
       exec 1 w wake (MyReceiver.run self) = Some (w1, wake, t1) /\
       match utf8_decode data with
       | Some text =>
         exec 3 w wake (MyReceiver.run self) =
           Some (set_items q rest
                   (mkWorld (op_time w wake 1) (lag w) (2 + ticks w)
                            (tx w) (rx w) (logged w ++ [received text])
                            (trace w ++
                               [ (op_time w wake 0, Get q data);
                                 (op_time w wake 1, Log (received text)) ])),
                 wake, MyReceiver.run self)
       | None =>
         istep w1 wake t1 = Raised UnicodeDecodeError /\
         state_of w1 wake t1 = Stopped UnicodeDecodeError /\
         logged w1 = logged w
       end).
Proof.
  intros q receiver. split.
  - intros H.
    assert (B : istep w wake (MyReceiver.run self) = Blocked)
      by (now apply receiver_blocked).
    assert (S0 : wstep w receiver = None).
    { unfold wstep, receiver. cbn [code wake_at]. now rewrite B. }
    split; [exact B|]. split; [unfold state_of; now rewrite B|].
    split.
    + intros others. apply (loop_step_beside_blocked receiver w others S0).
    + intros others. apply (loop_step_beside_blocked receiver w others S0).
  - intros data rest H w1.
    destruct (utf8_decode data) as [text|] eqn:U.
    + destruct (receiver_get self w wake H) as (t1 & E1 & _).
      exists t1. split; [exact E1|]. now apply receiver_step.
    + destruct (receiver_raises self w wake H U) as (t1 & E1 & R1).
      exists t1. split; [exact E1|]. split; [apply R1|].
      split; [unfold state_of; now rewrite R1|].
      unfold w1. now rewrite logged_set_items.
Qed.

(** C5, the counterexample: an item that is not UTF-8 is taken off the
    queue and never logged, however long the worker is run; the
    iteration ends in the exception of [data.decode()]. *)
Lemma receiver_takes_without_logging :
  let self := pytak.Build_QueueWorker rx_queue [] in
  let bad := [Byte.xe2; Byte.x82] in
  let w := start_world 0 [bad] in
  utf8_decode bad = None /\
  (exists w1 t1,
      exec 1 w 0 (MyReceiver.run self) = Some (w1, 0, t1) /\
      trace w1 = [(0, Get rx_queue bad)] /\
      items rx_queue w1 = [] /\
      state_of w1 0 t1 = Stopped UnicodeDecodeError) /\
  (forall n w' wake' t',
      exec n w 0 (MyReceiver.run self) = Some (w', wake', t') ->
      logged w' = []).
Proof.
  intros self bad w. split; [reflexivity|].
  destruct (@receiver_raises self w 0 bad []) as (t1 & E1 & R1);
    [reflexivity | reflexivity |].
  split.
  - do 2 eexists. split; [exact E1|]. split; [reflexivity|].
    split; [reflexivity|]. unfold state_of. now rewrite R1.
  - intros [|[|n]] w' wake' t' E.
    + inversion E; subst. reflexivity.
    + rewrite E1 in E. inversion E; subst. reflexivity.
    + change (S (S n)) with (1 + S n)%nat in E.
      rewrite exec_add, E1 in E. cbn [exec] in E. rewrite R1 in E.
      discriminate.
Qed.

(* ================================================================== *)
(** * Twelve seconds of [MySender] *)

(** C4, as the code has it.  [MySender.run], started not before 1970 on
    a machine whose clock does not go back and that takes no more than 7
    seconds over the first 11 operations, has put 2 or 3 events on its
    queue 12 seconds later (3 exactly when the first 17 operations take
    no more than 2 seconds): the events of its first iterations, built
    from the clock reads of their iteration.  Each of them is the text
    [marker_text] and decodes to an event of type [a-h-A-M-A] with one
    [point], at lat 40.781789 and lon -73.968698. *)
Theorem sender_enqueues_two_or_three_events
        (self : pytak.QueueWorker) (w : World) (n : nat) :
  (forall i, 0 <= lag w i) ->
  lags w 11 <= 7 * usec_per_sec ->
  0 <= clock w ->
  clock w + 72 * usec_per_sec < datetime_max ->
  (3 <= n)%nat ->
  let q := pytak.queue self in
  let deadline := clock w + 12 * usec_per_sec in
  exists w' wake' m,
    exec (n * 7) w (clock w) (MySender.run self)
    = Some (w', wake', MySender.run self) /\
    trace w' = trace w ++ flat_map (sender_ops q w) (seq 0 n) /\
    deadline < Z.max (clock w') wake' /\
    enqueued_until deadline q (flat_map (sender_ops q w) (seq 0 n))
    = map (fun k => (sender_time w k 5, sender_data w k)) (seq 0 m) /\
    (m = 2%nat \/ m = 3%nat) /\
    (m = 3%nat <-> lags w 17 <= 2 * usec_per_sec) /\
    forall k, (k < m)%nat ->
      exists e p,
        Codec.decode (sender_data w k) = inr e /\
        utf8_decode (sender_data w k)
        = Some (marker_text
                  (strftime (sender_time w k 1))
                  (strftime (sender_time w k 2))
                  (strftime (sender_time w k 3 + 60 * usec_per_sec))) /\
        tag e = u "event" /\
        ET.get e (u "type") = Some (u "a-h-A-M-A") /\
        children e = [p] /\
        tag p = u "point" /\
        ET.get p (u "lat") = Some (u "40.781789") /\
        ET.get p (u "lon") = Some (u "-73.968698").
Proof.
  intros L L11 H0 Hmax Hn q deadline.
  destruct (@sender_schedule self w n L) as (w' & wake' & E & _ & _ & HM & HT).
  fold q in HT.
  set (m := if lags w 17 <=? 2 * usec_per_sec then 3%nat else 2%nat).
  exists w', wake', m.
  split; [exact E|]. split; [exact HT|].
  assert (U : usec_per_sec = 1000000) by reflexivity.
  assert (M : datetime_min <= 0) by (vm_compute; discriminate).
  pose proof (fun j => @lags_nonneg w j L) as L0.
  split.
  { rewrite HM. pose proof (L0 (6 * n)%nat). unfold deadline. lia. }
  unfold enqueued_until. rewrite enqueued_sender_ops.
  set (g := fun k => (sender_time w k 5, sender_data w k)).
  set (f := fun td : Z * bytes => fst td <=? deadline).
  assert (T : forall k, (k < m)%nat -> sender_time w k 5 <= deadline).
  { intros k Hk. unfold sender_time, deadline.
    pose proof (@lags_le w 5 11 L ltac:(lia)).
    assert (K : (k < 2)%nat \/ k = 2%nat /\ lags w 17 <= 2 * usec_per_sec).
    { unfold m in Hk.
      destruct (Z.leb_spec (lags w 17) (2 * usec_per_sec)); lia. }
    destruct K as [K|[-> K]]; [destruct k as [|[|k]]; [| |lia]|].
    - change (6 * 0 + 5)%nat with 5%nat. lia.
    - change (6 * 1 + 5)%nat with 11%nat. lia.
    - change (6 * 2 + 5)%nat with 17%nat. lia. }
  split.
  { apply filter_prefix.
    - unfold m. destruct (_ <=? _); lia.
    - intros k Hk. unfold f, g. cbn [fst]. apply Z.leb_le. now apply T.
    - intros k Hk. unfold f, g. cbn [fst]. apply Z.leb_gt.
      unfold sender_time, deadline.
      assert (K : (3 <= k)%nat \/ k = 2%nat /\ 2 * usec_per_sec < lags w 17).
      { unfold m in Hk.
        destruct (Z.leb_spec (lags w 17) (2 * usec_per_sec)); lia. }
      destruct K as [K|[-> K]].
      + pose proof (L0 (6 * k + 5)%nat). lia.
      + change (6 * 2 + 5)%nat with 17%nat. lia. }
  split.
  { unfold m. destruct (_ <=? _); auto. }
  split.
  { unfold m. destruct (Z.leb_spec (lags w 17) (2 * usec_per_sec)).
    - split; auto.
    - split; [discriminate | lia]. }
  intros k Hk. specialize (T k Hk).
  assert (T12 : clock w <= sender_time w k 2
                /\ sender_time w k 2 <= sender_time w k 3
                /\ sender_time w k 3 <= sender_time w k 5).
  { unfold sender_time.
    pose proof (L0 (6 * k + 2)%nat).
    pose proof (@lags_le w (6 * k + 2) (6 * k + 3) L ltac:(lia)).
    pose proof (@lags_le w (6 * k + 3) (6 * k + 5) L ltac:(lia)). lia. }
  unfold deadline in T.
  do 2 eexists. split.
  { unfold sender_data.
    destruct (@decode_valid_events (sender_time w k 1) (sender_time w k 2)
                (sender_time w k 3 + 60 * usec_per_sec)) as [_ V];
      [lia | lia | lia | exact V]. }
  split; [apply marker_event_text|].
  repeat split.
Qed.

Lemma sender_enqueues_two_or_three_events_witness :
  let self := pytak.Build_QueueWorker tx_queue [] in
  let w := start_world 0 [] in
  let q := pytak.queue self in
  let deadline := clock w + 12 * usec_per_sec in
  exists w' wake' m,
    exec (3 * 7) w (clock w) (MySender.run self)
    = Some (w', wake', MySender.run self) /\
    trace w' = trace w ++ flat_map (sender_ops q w) (seq 0 3) /\
    deadline < Z.max (clock w') wake' /\
    enqueued_until deadline q (flat_map (sender_ops q w) (seq 0 3))
    = map (fun k => (sender_time w k 5, sender_data w k)) (seq 0 m) /\
    (m = 2%nat \/ m = 3%nat) /\
    (m = 3%nat <-> lags w 17 <= 2 * usec_per_sec) /\
    forall k, (k < m)%nat ->
      exists e p,
        Codec.decode (sender_data w k) = inr e /\
        utf8_decode (sender_data w k)
        = Some (marker_text
                  (strftime (sender_time w k 1))
                  (strftime (sender_time w k 2))
                  (strftime (sender_time w k 3 + 60 * usec_per_sec))) /\
        tag e = u "event" /\
        ET.get e (u "type") = Some (u "a-h-A-M-A") /\
        children e = [p] /\
        tag p = u "point" /\
        ET.get p (u "lat") = Some (u "40.781789") /\
        ET.get p (u "lon") = Some (u "-73.968698").
Proof.
  intros self w.
  apply (@sender_enqueues_two_or_three_events self w 3).
  - intros i. cbn. lia.
  - vm_compute. discriminate.
  - cbn. lia.
  - vm_compute. reflexivity.
  - lia.
Defined.

(** C4, the counterexamples.  On a machine that takes two seconds over
    every operation [MySender] has put one event on its queue 12 seconds
    after its start.  On a machine whose clock advances by one microsecond
    between two operations the event put in the first iteration decodes,
    and its [stale] is no whole number of seconds after its [start]. *)
Lemma sender_misses_the_count_and_the_offset :
  let self := pytak.Build_QueueWorker tx_queue [] in
  (let w := start_world 2000000 [] in
   exists w' wake' ops,
     exec (3 * 7) w (clock w) (MySender.run self)
     = Some (w', wake', MySender.run self) /\
     trace w' = trace w ++ ops /\
     clock w + 12 * usec_per_sec < Z.max (clock w') wake' /\
     length (enqueued_until (clock w + 12 * usec_per_sec) tx_queue ops)
     = 1%nat) /\
  (let w := start_world 1 [] in
   let start := u "1970-01-01T00:00:00.000002Z" in
   let stale := u "1970-01-01T00:01:00.000003Z" in
   exists w' wake' data e,
     exec 7 w (clock w) (MySender.run self)
     = Some (w', wake', MySender.run self) /\
     enqueued_until (clock w + 12 * usec_per_sec) tx_queue (trace w')
     = [(5, data)] /\
     Codec.decode data = inr e /\
     ET.get e (u "start") = Some start /\
     ET.get e (u "stale") = Some stale /\
     forall secs, ~ plus_seconds start secs stale).
Proof.
  intros self. split.
  - intros w.
    destruct (@sender_schedule self w 3) as (w' & wake' & E & _ & _ & HM & HT).
    { intros i. cbn. lia. }
    exists w', wake', (flat_map (sender_ops tx_queue w) (seq 0 3)).
    split; [exact E|]. split; [exact HT|]. split.
    + rewrite HM. vm_compute. reflexivity.
    + vm_compute. reflexivity.
  - intros w start stale.
    pose proof (sender_step self w (clock w)) as S7. cbv zeta in S7.
    do 4 eexists. split; [exact S7|].
    split; [vm_compute; reflexivity|].
    split.
    { destruct (@decode_valid_events 1 2 (3 + 60 * usec_per_sec)) as [_ V];
        [vm_compute; discriminate | vm_compute; discriminate
         | vm_compute; reflexivity |].
      etransitivity; [|exact V]. f_equal. }
    split; [vm_compute; reflexivity|]. split; [vm_compute; reflexivity|].
    intros secs H. apply plus_seconds_last_digit in H.
    vm_compute in H. discriminate H.
Qed.
